(** * playgroundjs-plugin: the global scope of the JavaScript runtime

    A shallow embedding of [bindings/global_scope.cc] and of the native
    callbacks of [bindings/global_callbacks.cc] that serve the event target,
    the deferred events and [wait()], together with the properties the
    specification states about them.

    Conventions.
    - Engine objects are identified by a handle: a [Function] or a [Promise]
      is a number, and two handles are the same object iff they are equal
      (what [operator==] on v8 handles decides).
    - Script numbers are carried as the integer that [GetInt64] reads.
    - [LOG(...)] lines are collected in the [log_] field of the runtime. *)

From Stdlib Require Import ZArith DecimalString.
From stdpp Require Import base strings list gmap sorting.

Set Warnings "-register-all".

Open Scope Z_scope.
Open Scope string_scope.
Open Scope list_scope.

(** ** plugin/arguments.h *)

(** A value held in the [std::any] of an argument bag; a float is kept as
    its bit pattern. *)
Inductive Any :=
| AnyInteger (value : Z)
| AnyFloat (bits : Z)
| AnyString (value : string).

(** [plugin::Arguments]: [std::unordered_map<std::string, std::any>]. *)
Abbreviation Arguments := (gmap string Any).

Definition AddInteger (name : string) (value : Z) (a : Arguments) : Arguments :=
  <[name := AnyInteger value]> a.
Definition AddString (name : string) (value : string) (a : Arguments) : Arguments :=
  <[name := AnyString value]> a.

(** ** Engine values *)

Definition Function := nat.
Definition Promise := nat.

(** Modelled from the spec: the statically registered Event descriptor of
    [bindings/event.h], which is not among the sources; it "constructs
    argument objects from native argument bags". *)
Record Event := { interface_name : string }.

Inductive Value :=
| VUndefined
| VNull
| VBoolean (b : bool)
| VNumber (n : Z)
| VString (s : string)
| VFunction (f : Function)
| VPromise (p : Promise)
| VObject (properties : list (string * Value))
| VArray (elements : list (option Value))
| VEvent (interface : Event) (arguments : Arguments).

Definition IsString (v : Value) : bool :=
  match v with VString _ => true | _ => false end.
Definition IsFunction (v : Value) : bool :=
  match v with VFunction _ => true | _ => false end.
Definition IsNumber (v : Value) : bool :=
  match v with VNumber _ => true | _ => false end.

(** [v8::Local<v8::Function>::Cast] of a value that passed [IsFunction];
    an empty handle is [None]. *)
Definition CastFunction (v : Value) : option Function :=
  match v with VFunction f => Some f | _ => None end.

(** [v8::Array::New(isolate, length)]: [length] holes. *)
Definition Array_New (length : nat) : list (option Value) := replicate length None.

(** [array->Set(context, index, value)]: a store past the end extends the
    array with holes. *)
Definition Array_Set (index : nat) (value : Value) (a : list (option Value))
  : list (option Value) :=
  if decide (index < length a)%nat then <[index := Some value]> a
  else a ++ replicate (index - length a) None ++ [Some value].

(** Modelled from the spec: [Event::NewInstance] (bindings/event.cc is not
    among the sources) builds the engine-visible object of a deferred event
    from its argument bag. *)
Definition NewInstance (e : Event) (arguments : Arguments) : Value := VEvent e arguments.

(** Modelled from the spec: [Event::DefaultPrevented] (bindings/event.cc is
    not among the sources) reads "the payload's default prevented flag"; the
    flag is the boolean property [defaultPrevented] of an object payload. *)
Fixpoint get_property (name : string) (properties : list (string * Value)) : option Value :=
  match properties with
  | [] => None
  | (k, v) :: rest => if decide (k = name) then Some v else get_property name rest
  end.

Fixpoint set_property (name : string) (v : Value) (properties : list (string * Value))
  : list (string * Value) :=
  match properties with
  | [] => [(name, v)]
  | (k, w) :: rest =>
      if decide (k = name) then (k, v) :: rest else (k, w) :: set_property name v rest
  end.

Definition DefaultPrevented (event : Value) : bool :=
  match event with
  | VObject properties =>
      match get_property "defaultPrevented" properties with
      | Some (VBoolean true) => true
      | _ => false
      end
  | _ => false
  end.

(** ** bindings/utilities.h *)

Inductive Exception :=
| TypeError (message : string).

(** [toString]: the UTF-8 contents of a string value. Every call site modelled
    here has checked [IsString] before. *)
Definition toString (v : Value) : string :=
  match v with VString s => s | _ => "" end.

(** [std::to_string] of an argument count. *)
Definition to_string (n : nat) : string := NilZero.string_of_uint (Nat.to_uint n).

(** How a native callback comes back to the script that called it: with the
    return value it has set ([undefined] when it set none), or with the
    exception [ThrowException] has scheduled on the isolate. *)
Inductive Completion :=
| Normal (return_value : Value)
| Abrupt (exception : Exception).

Definition ThrowException (message : string) : Completion := Abrupt (TypeError message).

(** ** Logging (base/logging.h) *)

Inductive Severity := INFO | WARNING | ERROR.

Definition LogLine : Type := Severity * string.

(** ** The state of the global scope *)

(** [event_listeners_] maps an event type to the vector of its listeners.
    [deferred_events_] is a [DeferredEventMultimapType]; it is kept as the
    sequence a range-for over it yields. *)
Record GlobalScope := {
  finalized_ : bool;
  events_ : gmap string Event;
  deferred_events_ : list (string * Arguments);
  event_listeners_ : gmap string (list Function);
}.

Definition GlobalScope_new : GlobalScope :=
  {| finalized_ := false; events_ := ∅; deferred_events_ := []; event_listeners_ := ∅ |}.

Definition set_event_listeners (m : gmap string (list Function)) (g : GlobalScope) : GlobalScope :=
  {| finalized_ := finalized_ g; events_ := events_ g;
     deferred_events_ := deferred_events_ g; event_listeners_ := m |}.

Definition set_deferred_events (d : list (string * Arguments)) (g : GlobalScope) : GlobalScope :=
  {| finalized_ := finalized_ g; events_ := events_ g;
     deferred_events_ := d; event_listeners_ := event_listeners_ g |}.

(** [GlobalScope::RegisterEvent] *)
Definition RegisterEvent (type : string) (event : Event) (g : GlobalScope) : GlobalScope :=
  {| finalized_ := finalized_ g; events_ := <[type := event]> (events_ g);
     deferred_events_ := deferred_events_ g; event_listeners_ := event_listeners_ g |}.

(** [GlobalScope::Finalize] *)
Definition Finalize (g : GlobalScope) : GlobalScope :=
  {| finalized_ := true; events_ := events_ g;
     deferred_events_ := deferred_events_ g; event_listeners_ := event_listeners_ g |}.

(** [GlobalScope::GetEvent]: [nullptr] is [None]. *)
Definition GetEvent (g : GlobalScope) (type : string) : option Event := events_ g !! type.

(** [GlobalScope::AddEventListener]: [event_listeners_[type].push_back]. *)
Definition AddEventListener (type : string) (listener : Function) (g : GlobalScope) : GlobalScope :=
  set_event_listeners
    (<[type := default [] (event_listeners_ g !! type) ++ [listener]]> (event_listeners_ g)) g.

(** [GlobalScope::HasEventListeners] *)
Definition HasEventListeners (g : GlobalScope) (type : string) : bool :=
  match event_listeners_ g !! type with
  | None => false
  | Some listeners => bool_decide (0 < length listeners)%nat
  end.

(** The [while] loop of [RemoveEventListener]: every element equal to
    [listener] is erased, the others keep their places. *)
Fixpoint erase_all (listener : Function) (listeners : list Function) : list Function :=
  match listeners with
  | [] => []
  | f :: rest =>
      if decide (listener = f) then erase_all listener rest
      else f :: erase_all listener rest
  end.

(** [GlobalScope::RemoveEventListener]; an empty [listener] handle is [None]. *)
Definition RemoveEventListener (type : string) (listener : option Function) (g : GlobalScope)
  : GlobalScope :=
  match event_listeners_ g !! type with
  | None => g
  | Some listeners =>
      match listener with
      | None => set_event_listeners (delete type (event_listeners_ g)) g
      | Some f => set_event_listeners (<[type := erase_all f listeners]> (event_listeners_ g)) g
      end
  end.

(** [GlobalScope::event_handler_count] *)
Definition event_handler_count (g : GlobalScope) : nat :=
  map_fold (fun _ listeners count => (count + length listeners)%nat) 0%nat (event_listeners_ g).

(** [GlobalScope::VerifyNoEventHandlersLeft]: the lines it logs, and the
    scope it leaves. *)
Definition leftover_warning (entry : string * list Function) : option LogLine :=
  let count := length entry.2 in
  if decide (count = 0%nat) then None
  else Some (WARNING, "The event " +:+ entry.1 +:+ " still has " +:+ to_string count
                        +:+ " attached listeners.").

Definition VerifyNoEventHandlersLeft (g : GlobalScope) : list LogLine * GlobalScope :=
  let lines := omap leftover_warning (map_to_list (event_listeners_ g)) in
  let warnings := length lines in
  if decide (0 < warnings)%nat
  then (lines ++ [(WARNING, "Not clearing the event listener map.")], g)
  else (lines, set_event_listeners ∅ g).

(** ** The deferred-event multimap *)

(** [DeferredEventMultimapType] is declared in [bindings/global_scope.h],
    which is not among the sources. The code uses two operations of it:
    [insert] of a (type, arguments) pair and a range-for over all pairs. A
    multimap is represented by the sequence its iteration yields, and the
    container is a parameter: all that is assumed of [insert] is that it adds
    the pair and keeps every pair already stored. *)
Class Multimap := {
  mm_insert : string * Arguments -> list (string * Arguments) -> list (string * Arguments);
  mm_insert_perm : forall e l, mm_insert e l ≡ₚ e :: l;
}.

(** [std::multimap<std::string, plugin::Arguments>]: iteration goes by
    ascending key, and a pair is inserted at the upper bound of its key, so
    that pairs of one key stay in the order of their insertion. *)
Fixpoint multimap_insert (e : string * Arguments) (l : list (string * Arguments))
  : list (string * Arguments) :=
  match l with
  | [] => [e]
  | x :: rest =>
      if String.leb x.1 e.1 then x :: multimap_insert e rest else e :: l
  end.

Lemma multimap_insert_perm e l : multimap_insert e l ≡ₚ e :: l.
Proof.
  induction l as [|x rest IH]; simpl; [done|].
  destruct (String.leb x.1 e.1); [|done].
  rewrite IH. apply Permutation_swap.
Qed.

Definition std_multimap : Multimap :=
  {| mm_insert := multimap_insert; mm_insert_perm := multimap_insert_perm |}.

(** [GlobalScope::StoreDeferredEvent] *)
Definition StoreDeferredEvent `{Multimap} (type : string) (arguments : Arguments)
    (g : GlobalScope) : GlobalScope :=
  set_deferred_events (mm_insert (type, arguments) (deferred_events_ g)) g.

(** ** Collaborators of the global scope *)

(** Modelled from the spec: the Exception Queue (bindings/exception_handler.h
    is not among the sources), an "ordered sequence of captured (filename,
    line, message) records plus a source tag describing the dispatch context
    active when the error occurred". [sources_] is the stack of the live
    [ScopedExceptionSource] markers. *)
Record ScriptError := {
  filename : string;
  line_number : nat;
  message : string;
}.

Record ExceptionHandler := {
  queue_ : list (ScriptError * string);
  sources_ : list string;
}.

Definition ExceptionHandler_new : ExceptionHandler := {| queue_ := []; sources_ := [] |}.

Definition push_source (source : string) (h : ExceptionHandler) : ExceptionHandler :=
  {| queue_ := queue_ h; sources_ := source :: sources_ h |}.

Definition pop_source (h : ExceptionHandler) : ExceptionHandler :=
  {| queue_ := queue_ h; sources_ := tail (sources_ h) |}.

Definition capture (error : ScriptError) (h : ExceptionHandler) : ExceptionHandler :=
  {| queue_ := queue_ h ++ [(error, default "" (head (sources_ h)))];
     sources_ := sources_ h |}.

(** Modelled from the spec: the Timer Queue (bindings/timer_queue.h is not
    among the sources), "a collection of pending (deadline, Promise) pairs";
    the list is in insertion order. *)
Abbreviation TimerQueue := (list (Z * Promise)).

(** "[Add(promise, delay)] inserts keyed by absolute deadline = now + delay." *)
Definition TimerQueue_Add (now : Z) (promise : Promise) (time : Z) (q : TimerQueue) : TimerQueue :=
  q ++ [(now + time, promise)].

(** "Process them in ascending deadline order (ties broken by insertion
    order)": an entry goes in front of the first one whose deadline is not
    smaller, and the entries are put in from the last inserted to the first. *)
Fixpoint insert_by_deadline (e : Z * Promise) (sorted : TimerQueue) : TimerQueue :=
  match sorted with
  | [] => [e]
  | x :: rest =>
      if decide (e.1 <= x.1) then e :: sorted else x :: insert_by_deadline e rest
  end.

Definition in_deadline_order (q : TimerQueue) : TimerQueue := foldr insert_by_deadline [] q.

(** "Select every entry whose deadline ≤ current time, ..., remove each from
    the queue": the entries to resolve, in the order of their resolution,
    and the queue that is left. *)
Definition TimerQueue_due (now : Z) (q : TimerQueue) : TimerQueue :=
  in_deadline_order (filter (fun e => e.1 <= now) q).

Definition TimerQueue_pending (now : Z) (q : TimerQueue) : TimerQueue :=
  filter (fun e => ¬ e.1 <= now) q.

(** ** bindings/runtime.h *)

(** The members of [Runtime] the global scope works with. [clock_] is the
    reading of [base::monotonicallyIncreasingTime()]. Promises are handed out
    by number; [resolved_promises_] lists the promises resolved so far with
    the value of each, in the order of their resolution. [calls_] lists the
    script functions entered so far, each with its argument. *)
Record Runtime := {
  global_scope_ : GlobalScope;
  timer_queue_ : TimerQueue;
  exception_handler_ : ExceptionHandler;
  is_ready_ : bool;
  clock_ : Z;
  created_promises_ : nat;
  resolved_promises_ : list (Promise * Value);
  calls_ : list (Function * Value);
  log_ : list LogLine;
}.

Definition Runtime_Create : Runtime :=
  {| global_scope_ := GlobalScope_new; timer_queue_ := [];
     exception_handler_ := ExceptionHandler_new; is_ready_ := false; clock_ := 0;
     created_promises_ := 0; resolved_promises_ := []; calls_ := []; log_ := [] |}.

Definition set_global_scope (g : GlobalScope) (rt : Runtime) : Runtime :=
  {| global_scope_ := g; timer_queue_ := timer_queue_ rt;
     exception_handler_ := exception_handler_ rt; is_ready_ := is_ready_ rt;
     clock_ := clock_ rt; created_promises_ := created_promises_ rt;
     resolved_promises_ := resolved_promises_ rt; calls_ := calls_ rt; log_ := log_ rt |}.

Definition set_timer_queue (q : TimerQueue) (rt : Runtime) : Runtime :=
  {| global_scope_ := global_scope_ rt; timer_queue_ := q;
     exception_handler_ := exception_handler_ rt; is_ready_ := is_ready_ rt;
     clock_ := clock_ rt; created_promises_ := created_promises_ rt;
     resolved_promises_ := resolved_promises_ rt; calls_ := calls_ rt; log_ := log_ rt |}.

Definition set_exception_handler (h : ExceptionHandler) (rt : Runtime) : Runtime :=
  {| global_scope_ := global_scope_ rt; timer_queue_ := timer_queue_ rt;
     exception_handler_ := h; is_ready_ := is_ready_ rt;
     clock_ := clock_ rt; created_promises_ := created_promises_ rt;
     resolved_promises_ := resolved_promises_ rt; calls_ := calls_ rt; log_ := log_ rt |}.

Definition set_clock (t : Z) (rt : Runtime) : Runtime :=
  {| global_scope_ := global_scope_ rt; timer_queue_ := timer_queue_ rt;
     exception_handler_ := exception_handler_ rt; is_ready_ := is_ready_ rt;
     clock_ := t; created_promises_ := created_promises_ rt;
     resolved_promises_ := resolved_promises_ rt; calls_ := calls_ rt; log_ := log_ rt |}.

Definition set_created_promises (n : nat) (rt : Runtime) : Runtime :=
  {| global_scope_ := global_scope_ rt; timer_queue_ := timer_queue_ rt;
     exception_handler_ := exception_handler_ rt; is_ready_ := is_ready_ rt;
     clock_ := clock_ rt; created_promises_ := n;
     resolved_promises_ := resolved_promises_ rt; calls_ := calls_ rt; log_ := log_ rt |}.

Definition set_resolved_promises (r : list (Promise * Value)) (rt : Runtime) : Runtime :=
  {| global_scope_ := global_scope_ rt; timer_queue_ := timer_queue_ rt;
     exception_handler_ := exception_handler_ rt; is_ready_ := is_ready_ rt;
     clock_ := clock_ rt; created_promises_ := created_promises_ rt;
     resolved_promises_ := r; calls_ := calls_ rt; log_ := log_ rt |}.

Definition set_calls (c : list (Function * Value)) (rt : Runtime) : Runtime :=
  {| global_scope_ := global_scope_ rt; timer_queue_ := timer_queue_ rt;
     exception_handler_ := exception_handler_ rt; is_ready_ := is_ready_ rt;
     clock_ := clock_ rt; created_promises_ := created_promises_ rt;
     resolved_promises_ := resolved_promises_ rt; calls_ := c; log_ := log_ rt |}.

Definition set_log (l : list LogLine) (rt : Runtime) : Runtime :=
  {| global_scope_ := global_scope_ rt; timer_queue_ := timer_queue_ rt;
     exception_handler_ := exception_handler_ rt; is_ready_ := is_ready_ rt;
     clock_ := clock_ rt; created_promises_ := created_promises_ rt;
     resolved_promises_ := resolved_promises_ rt; calls_ := calls_ rt; log_ := l |}.

Definition LOG (severity : Severity) (text : string) (rt : Runtime) : Runtime :=
  set_log (log_ rt ++ [(severity, text)]) rt.

(** The monotonic clock moves on to [t]; it never goes back. *)
Definition advance_clock (t : Z) (rt : Runtime) : Runtime := set_clock (Z.max (clock_ rt) t) rt.

(** Modelled from the spec: [Promise] (bindings/promise.h is not among the
    sources), "a single-resolution future": [std::make_shared<Promise>()]
    takes the next handle, and [Resolve] "fulfills it exactly once; a second
    call is a no-op". *)
Definition Promise_new (rt : Runtime) : Promise * Runtime :=
  (created_promises_ rt, set_created_promises (S (created_promises_ rt)) rt).

Definition is_resolved (promise : Promise) (rt : Runtime) : bool :=
  bool_decide (promise ∈ (resolved_promises_ rt).*1).

Definition Promise_Resolve (promise : Promise) (value : Value) (rt : Runtime) : Runtime :=
  if is_resolved promise rt then rt
  else set_resolved_promises (resolved_promises_ rt ++ [(promise, value)]) rt.

(** [GlobalScope::Wait]: a new promise goes to the timer queue and is
    returned. *)
Definition Wait (rt : Runtime) (time : Z) : Promise * Runtime :=
  let '(promise, rt) := Promise_new rt in
  (promise, set_timer_queue (TimerQueue_Add (clock_ rt) promise time (timer_queue_ rt)) rt).

(** Modelled from the spec: step (b) of [Runtime::OnFrame]
    (bindings/runtime.cc is not among the sources), the resolution pass of
    the timer queue: every due entry is removed and its promise is resolved
    "with no value". *)
Definition OnFrame (rt : Runtime) : Runtime :=
  let due := TimerQueue_due (clock_ rt) (timer_queue_ rt) in
  let rt := set_timer_queue (TimerQueue_pending (clock_ rt) (timer_queue_ rt)) rt in
  foldl (fun rt e => Promise_Resolve e.2 VUndefined rt) rt due.

(** ** bindings/global_callbacks.cc *)

(** [arguments[i]]: [undefined] past the last argument. *)
Definition argument (arguments : list Value) (i : nat) : Value :=
  default VUndefined (arguments !! i).

(** [void addEventListener(string type, function listener);] *)
Definition AddEventListenerCallback (rt : Runtime) (arguments : list Value)
  : Completion * Runtime :=
  if decide (length arguments < 2)%nat then
    (ThrowException ("unable to execute addEventListener(): 2 arguments required, but only "
                       +:+ to_string (length arguments) +:+ " provided."), rt)
  else if negb (IsString (argument arguments 0)) then
    (ThrowException "unable to execute addEventListener(): expected a string for argument 1.", rt)
  else
    match CastFunction (argument arguments 1) with
    | None =>
        (ThrowException "unable to execute addEventListener(): expected a function for argument 2.",
         rt)
    | Some listener =>
        (Normal VUndefined,
         set_global_scope
           (AddEventListener (toString (argument arguments 0)) listener (global_scope_ rt)) rt)
    end.

(** [boolean hasEventListeners(string type);] *)
Definition HasEventListenersCallback (rt : Runtime) (arguments : list Value)
  : Completion * Runtime :=
  if decide (length arguments = 0)%nat then
    (ThrowException
       "unable to execute hasEventListeners(): 1 argument required, but only 0 provided.", rt)
  else if negb (IsString (argument arguments 0)) then
    (ThrowException "unable to execute hasEventListeners(): expected a string for argument 1.", rt)
  else
    (Normal (VBoolean (HasEventListeners (global_scope_ rt) (toString (argument arguments 0)))), rt).

(** [void removeEventListener(string type[, function listener]);] *)
Definition RemoveEventListenerCallback (rt : Runtime) (arguments : list Value)
  : Completion * Runtime :=
  if decide (length arguments = 0)%nat then
    (ThrowException
       "unable to execute removeEventListener(): 1 argument required, but 0 provided.", rt)
  else if negb (IsString (argument arguments 0)) then
    (ThrowException "unable to execute removeEventListener(): expected a string for argument 1.",
     rt)
  else
    let function := CastFunction (argument arguments 1) in
    (Normal VUndefined,
     set_global_scope
       (RemoveEventListener (toString (argument arguments 0)) function (global_scope_ rt)) rt).

(** The record of one deferred event: [{ type, event }]. *)
Definition deferred_record (type : string) (event : Event) (arguments : Arguments) : Value :=
  VObject [("type", VString type); ("event", NewInstance event arguments)].

(** The body of the range-for of [GetDeferredEventsCallback]; the state is
    the array, [index] and the runtime (for the log). *)
Definition deferred_step (global : GlobalScope)
    (st : list (option Value) * nat * Runtime) (entry : string * Arguments)
  : list (option Value) * nat * Runtime :=
  let '(events, index, rt) := st in
  let '(type, arguments) := entry in
  match GetEvent global type with
  | None =>
      (events, index,
       LOG ERROR ("Unrecognized event name: " +:+ type +:+ ". Dropping deferred event.") rt)
  | Some event => (Array_Set index (deferred_record type event arguments) events, S index, rt)
  end.

(** [sequence<object { type, event }> getDeferredEvents();] *)
Definition GetDeferredEventsCallback (rt : Runtime) (arguments : list Value)
  : Completion * Runtime :=
  let global := global_scope_ rt in
  let deferred_events := deferred_events_ global in
  let events := Array_New (length deferred_events) in
  let '(events, _, rt) := foldl (deferred_step global) (events, 0%nat, rt) deferred_events in
  (Normal (VArray events), set_global_scope (set_deferred_events [] (global_scope_ rt)) rt).

(** [Promise<void> wait(unsigned long time);] *)
Definition WaitCallback (rt : Runtime) (arguments : list Value) : Completion * Runtime :=
  if decide (length arguments = 0)%nat then
    (ThrowException "unable to execute wait(): 1 argument required, but only 0 provided.", rt)
  else
    match argument arguments 0 with
    | VNumber time => let '(promise, rt) := Wait rt time in (Normal (VPromise promise), rt)
    | _ => (ThrowException "unable to execute wait(): expected a number for argument 1.", rt)
    end.

(** ** Script functions *)

(** What the body of a script function does, as far as the event target is
    concerned: it calls [addEventListener] or [removeEventListener], it sets
    the default-prevented flag of the event it was given, or it throws. *)
Inductive Action :=
| CallAddEventListener (type : string) (listener : Function)
| CallRemoveEventListener (type : string) (listener : option Function)
| PreventDefault
| Throw (error : ScriptError).

(** [event.preventDefault()]: the flag is set on the payload object itself,
    which the dispatcher and the later listeners share. *)
Definition prevent_default (event : Value) : Value :=
  match event with
  | VObject properties => VObject (set_property "defaultPrevented" (VBoolean true) properties)
  | _ => event
  end.

(** An exception of a native callback, as the script sees it. *)
Definition script_error_of (e : Exception) : ScriptError :=
  match e with
  | TypeError text => {| filename := ""; line_number := 0; message := text |}
  end.

(** One statement of a body: the error it throws, if any, the runtime and
    the event after it. *)
Definition run_action (a : Action) (rt : Runtime) (event : Value)
  : option ScriptError * Runtime * Value :=
  match a with
  | CallAddEventListener type listener =>
      match AddEventListenerCallback rt [VString type; VFunction listener] with
      | (Normal _, rt) => (None, rt, event)
      | (Abrupt e, rt) => (Some (script_error_of e), rt, event)
      end
  | CallRemoveEventListener type listener =>
      let arguments :=
        match listener with
        | Some f => [VString type; VFunction f]
        | None => [VString type]
        end in
      match RemoveEventListenerCallback rt arguments with
      | (Normal _, rt) => (None, rt, event)
      | (Abrupt e, rt) => (Some (script_error_of e), rt, event)
      end
  | PreventDefault => (None, rt, prevent_default event)
  | Throw error => (Some error, rt, event)
  end.

(** A body runs statement by statement and stops at the first one that
    throws. *)
Fixpoint run_body (body : list Action) (rt : Runtime) (event : Value)
  : option ScriptError * Runtime * Value :=
  match body with
  | [] => (None, rt, event)
  | a :: rest =>
      match run_action a rt event with
      | (Some error, rt, event) => (Some error, rt, event)
      | (None, rt, event) => run_body rest rt event
      end
  end.

(** The functions [GlobalScope::InstallPrototypes] installs for the event
    target, the deferred events and the timers. *)
Inductive Native :=
| addEventListener
| dispatchEvent
| hasEventListener
| removeEventListener
| getDeferredEvents
| wait.

Section Script.

(** The bodies of the functions of the script that is loaded. *)
Variable script : Function -> list Action.

(** Modelled from the spec: [Call] (declared in a header that is not among
    the sources) enters a script function with one argument; an exception
    the function throws is "captured by the Exception Queue", tagged with
    the exception source that is active, and does not reach the caller. *)
Definition Call (rt : Runtime) (function : Function) (event : Value) : Runtime * Value :=
  let rt := set_calls (calls_ rt ++ [(function, event)]) rt in
  match run_body (script function) rt event with
  | (Some error, rt, event) =>
      (set_exception_handler (capture error (exception_handler_ rt)) rt, event)
  | (None, rt, event) => (rt, event)
  end.

(** What the range-for of [DispatchEvent] finds at position [i] of the
    vector it iterates. The iterators are taken once, before the first
    listener runs, and the vector stays where it is when a listener erases
    from it: the elements behind the erased one move down, and the places
    between the new end and the end the loop has kept hold destroyed
    handles, which [IsEmpty()] reports as empty ([None]).

    This is the loop of the source as long as no listener changes the list
    of the dispatched type. C++ leaves the loop undefined from the moment
    the vector changes under it: for a listener that erases single elements
    the definition shows what an unoptimised build does, and when a listener
    erases the entry of the type, or makes the vector grow, the loop of the
    source reads storage that has been freed, which nothing here stands
    for. *)
Definition listener_at (rt : Runtime) (type : string) (i : nat) : option Function :=
  event_listeners_ (global_scope_ rt) !! type ≫= fun listeners => listeners !! i.

(** The body of the range-for of [DispatchEvent]. *)
Definition dispatch_step (type : string) (st : Runtime * Value) (i : nat) : Runtime * Value :=
  let '(rt, event) := st in
  match listener_at rt type i with
  | None => (LOG WARNING ("[v8] Empty function found for event " +:+ type) rt, event)
  | Some function => Call rt function event
  end.

(** [GlobalScope::DispatchEvent]. Beside the boolean it returns the
    runtime and the event object as the listeners have left them. *)
Definition DispatchEvent (rt : Runtime) (type : string) (event : Value)
  : bool * Runtime * Value :=
  match event_listeners_ (global_scope_ rt) !! type with
  | None => (false, rt, event)
  | Some listeners =>
      let source := "dispatched event `" +:+ type +:+ "`" in
      let rt := set_exception_handler (push_source source (exception_handler_ rt)) rt in
      let '(rt, event) :=
        foldl (dispatch_step type) (rt, event) (seq 0 (length listeners)) in
      let rt := set_exception_handler (pop_source (exception_handler_ rt)) rt in
      (DefaultPrevented event, rt, event)
  end.

(** [boolean dispatchEvent(string type[, object event]);] The callback
    sets no return value. *)
Definition DispatchEventCallback (rt : Runtime) (arguments : list Value)
  : Completion * Runtime :=
  if decide (length arguments = 0)%nat then
    (ThrowException
       "unable to execute dispatchEvent(): 1 argument required, but only 0 provided.", rt)
  else if negb (IsString (argument arguments 0)) then
    (ThrowException "unable to execute dispatchEvent(): expected a string for argument 1.", rt)
  else
    let type := toString (argument arguments 0) in
    if decide (2 <= length arguments)%nat then
      let '(_, rt, _) := DispatchEvent rt type (argument arguments 1) in (Normal VUndefined, rt)
    else
      let '(_, rt, _) := DispatchEvent rt type VNull in (Normal VUndefined, rt).

Definition callback (native : Native) : Runtime -> list Value -> Completion * Runtime :=
  match native with
  | addEventListener => AddEventListenerCallback
  | dispatchEvent => DispatchEventCallback
  | hasEventListener => HasEventListenersCallback
  | removeEventListener => RemoveEventListenerCallback
  | getDeferredEvents => GetDeferredEventsCallback
  | wait => WaitCallback
  end.

End Script.

(** * Properties *)

(** ** The listener registry *)

Lemma erase_all_filter (listener : Function) (listeners : list Function) :
  erase_all listener listeners = filter (fun f => f ≠ listener) listeners.
Proof.
  induction listeners as [|f rest IH]; simpl; [done|].
  rewrite filter_cons. destruct (decide (listener = f)) as [->|Hne].
  - by rewrite decide_False by naive_solver.
  - rewrite decide_True by naive_solver. by rewrite IH.
Qed.

Lemma AddEventListener_lookup (type : string) (listener : Function) (g : GlobalScope) :
  event_listeners_ (AddEventListener type listener g) !! type
  = Some (default [] (event_listeners_ g !! type) ++ [listener]).
Proof. unfold AddEventListener. simpl. by rewrite lookup_insert_eq. Qed.

Lemma AddEventListener_lookup_ne (type type' : string) (listener : Function) (g : GlobalScope) :
  type ≠ type' →
  event_listeners_ (AddEventListener type listener g) !! type' = event_listeners_ g !! type'.
Proof. intros. unfold AddEventListener. simpl. by rewrite lookup_insert_ne. Qed.

Lemma RemoveEventListener_lookup_ne (type type' : string) (listener : option Function)
    (g : GlobalScope) :
  type ≠ type' →
  event_listeners_ (RemoveEventListener type listener g) !! type' = event_listeners_ g !! type'.
Proof.
  intros Hne. unfold RemoveEventListener.
  destruct (event_listeners_ g !! type) as [listeners|]; [|done].
  destruct listener; simpl.
  - by rewrite lookup_insert_ne.
  - by rewrite lookup_delete_ne.
Qed.

(** C6. [RemoveEventListener(T)] without a handler leaves no listener
    registered for [T], however many there were; [RemoveEventListener(T, A)]
    removes every occurrence of [A] from the list of [T] and keeps the other
    handlers in their order; the lists of the other types are not touched.
    The script-visible [removeEventListener] reaches the two cases with one
    and with two arguments. *)
Theorem RemoveEventListener_removes (rt : Runtime) (T : string) (A : Function) :
  let g := global_scope_ rt in
  event_listeners_ (RemoveEventListener T None g) !! T = None
  ∧ HasEventListeners (RemoveEventListener T None g) T = false
  ∧ event_listeners_ (RemoveEventListener T (Some A) g) !! T
    = filter (fun f => f ≠ A) <$> event_listeners_ g !! T
  ∧ (∀ T' handler, T ≠ T' →
       event_listeners_ (RemoveEventListener T handler g) !! T' = event_listeners_ g !! T')
  ∧ RemoveEventListenerCallback rt [VString T]
    = (Normal VUndefined, set_global_scope (RemoveEventListener T None g) rt)
  ∧ RemoveEventListenerCallback rt [VString T; VFunction A]
    = (Normal VUndefined, set_global_scope (RemoveEventListener T (Some A) g) rt).
Proof.
  intros g.
  assert (event_listeners_ (RemoveEventListener T None g) !! T = None) as Hnone.
  { unfold RemoveEventListener.
    destruct (event_listeners_ g !! T) as [listeners|] eqn:Hl; simpl; [|done].
    apply lookup_delete_eq. }
  split_and!; try done.
  - unfold HasEventListeners. by rewrite Hnone.
  - unfold RemoveEventListener.
    destruct (event_listeners_ g !! T) as [listeners|] eqn:Hl; simpl.
    + by rewrite lookup_insert_eq, erase_all_filter.
    + by rewrite Hl.
  - intros T' handler Hne. by apply RemoveEventListener_lookup_ne.
Qed.

(** ** Shutdown verification *)

Definition no_listeners_left (g : GlobalScope) : Prop :=
  ∀ T listeners, event_listeners_ g !! T = Some listeners → listeners = [].

Lemma leftover_warning_None (entry : string * list Function) :
  leftover_warning entry = None ↔ entry.2 = [].
Proof.
  unfold leftover_warning. destruct entry as [T [|f l]]; simpl; [done|].
  split; intros; discriminate.
Qed.

Lemma no_leftover_lines (g : GlobalScope) :
  omap leftover_warning (map_to_list (event_listeners_ g)) = [] ↔ no_listeners_left g.
Proof.
  unfold no_listeners_left. split.
  - intros Hnil T listeners Hl.
    apply elem_of_map_to_list in Hl.
    destruct (leftover_warning (T, listeners)) as [line|] eqn:Hw.
    + assert (line ∈ omap leftover_warning (map_to_list (event_listeners_ g))) as Hin.
      { apply list_elem_of_omap. eauto. }
      rewrite Hnil in Hin. by apply elem_of_nil in Hin.
    + by apply leftover_warning_None in Hw.
  - intros Hall.
    destruct (omap leftover_warning (map_to_list (event_listeners_ g))) as [|line rest] eqn:Ho;
      [done|].
    assert (line ∈ omap leftover_warning (map_to_list (event_listeners_ g))) as Hin.
    { rewrite Ho. left. }
    apply list_elem_of_omap in Hin as ([T listeners] & Hin & Hw).
    apply elem_of_map_to_list in Hin. apply Hall in Hin. subst listeners.
    discriminate.
Qed.

(** C7. [VerifyNoEventHandlersLeft] leaves an empty listener map iff no
    type has a listener left. When some type has one, the scope is left as
    it was, and for every type with [n > 0] listeners the warning of that
    type is logged. *)
Theorem VerifyNoEventHandlersLeft_clears_iff (g : GlobalScope) :
  let lines := (VerifyNoEventHandlersLeft g).1 in
  let g' := (VerifyNoEventHandlersLeft g).2 in
  (event_listeners_ g' = ∅ ↔ no_listeners_left g)
  ∧ (¬ no_listeners_left g → g' = g)
  ∧ (¬ no_listeners_left g →
     ∀ T listeners, event_listeners_ g !! T = Some listeners → listeners ≠ [] →
       (WARNING, "The event " +:+ T +:+ " still has " +:+ to_string (length listeners)
                   +:+ " attached listeners.") ∈ lines)
  ∧ (no_listeners_left g → lines = []).
Proof.
  simpl. unfold VerifyNoEventHandlersLeft.
  pose proof (no_leftover_lines g) as Hiff.
  set (lines := omap leftover_warning (map_to_list (event_listeners_ g))) in *.
  destruct (decide (0 < length lines)%nat) as [Hpos|Hzero]; simpl.
  - assert (¬ no_listeners_left g) as Hnot.
    { intros H%Hiff. rewrite H in Hpos. simpl in Hpos. lia. }
    split_and!; try done.
    + split; [|done]. intros Hempty. exfalso. apply Hnot.
      intros T listeners Hl. rewrite Hempty in Hl. by rewrite lookup_empty in Hl.
    + intros _ T listeners Hl Hne.
      apply elem_of_app. left. subst lines.
      apply list_elem_of_omap. exists (T, listeners). split.
      * by apply elem_of_map_to_list.
      * unfold leftover_warning. simpl.
        rewrite decide_False; [done|]. by destruct listeners.
  - assert (lines = []) as Hnil by (destruct lines; simpl in *; [done|lia]).
    assert (no_listeners_left g) as Hall by by apply Hiff.
    split_and!; try done.
Qed.

(** ** Deferred events *)

(** The record [getDeferredEvents] builds for an entry, if the type of the
    entry has a registered event. *)
Definition record_of (g : GlobalScope) (entry : string * Arguments) : option Value :=
  (fun event => deferred_record entry.1 event entry.2) <$> GetEvent g entry.1.

Definition deferred_records (g : GlobalScope) (entries : list (string * Arguments)) : list Value :=
  omap (record_of g) entries.

(** The runtime after the errors logged for the entries that are dropped. *)
Definition log_dropped (g : GlobalScope) (rt : Runtime) (entries : list (string * Arguments))
  : Runtime :=
  foldl (fun rt entry =>
           match GetEvent g entry.1 with
           | None => LOG ERROR ("Unrecognized event name: " +:+ entry.1
                                  +:+ ". Dropping deferred event.") rt
           | Some _ => rt
           end) rt entries.

Lemma log_dropped_global_scope g rt entries :
  global_scope_ (log_dropped g rt entries) = global_scope_ rt.
Proof.
  revert rt. induction entries as [|e rest IH]; intros rt; simpl; [done|].
  rewrite IH. by destruct (GetEvent g e.1).
Qed.

Lemma deferred_records_cons g entry entries :
  deferred_records g (entry :: entries)
  = match GetEvent g entry.1 with
    | Some event => deferred_record entry.1 event entry.2 :: deferred_records g entries
    | None => deferred_records g entries
    end.
Proof. unfold deferred_records. simpl. unfold record_of at 1. by destruct (GetEvent g entry.1). Qed.

Lemma length_deferred_records g entries :
  (length (deferred_records g entries) ≤ length entries)%nat.
Proof.
  induction entries as [|e rest IH]; [done|].
  rewrite deferred_records_cons. destruct (GetEvent g e.1); simpl; lia.
Qed.

(** The range-for of [GetDeferredEventsCallback], started with [stored]
    records in the array and [holes] holes behind them. *)
Lemma deferred_fold g entries : ∀ (stored : list Value) (holes : nat) rt,
  (length entries ≤ holes)%nat →
  foldl (deferred_step g) ((Some <$> stored) ++ replicate holes None, length stored, rt) entries
  = ((Some <$> stored ++ deferred_records g entries)
       ++ replicate (holes - length (deferred_records g entries)) None,
     length (stored ++ deferred_records g entries),
     log_dropped g rt entries).
Proof.
  induction entries as [|[type arguments] rest IH]; intros stored holes rt Hlen.
  - simpl. by rewrite app_nil_r, Nat.sub_0_r.
  - rewrite deferred_records_cons. simpl in *.
    destruct (GetEvent g type) as [event|] eqn:Hevent.
    + destruct holes as [|holes]; [lia|].
      assert (Array_Set (length stored) (deferred_record type event arguments)
                ((Some <$> stored) ++ replicate (S holes) None)
              = (Some <$> stored ++ [deferred_record type event arguments])
                  ++ replicate holes None) as ->.
      { unfold Array_Set. rewrite decide_True.
        - rewrite insert_app_r_alt by (rewrite length_fmap; lia).
          rewrite length_fmap, Nat.sub_diag. simpl.
          rewrite fmap_app, <- app_assoc. done.
        - rewrite length_app, length_fmap. simpl. lia. }
      replace (S (length stored))
        with (length (stored ++ [deferred_record type event arguments]))
        by (rewrite length_app; simpl; lia).
      rewrite IH by lia. rewrite <- !app_assoc. done.
    + rewrite IH by lia. done.
Qed.

Lemma GetDeferredEventsCallback_eq (rt : Runtime) (arguments : list Value) :
  let g := global_scope_ rt in
  let entries := deferred_events_ g in
  let records := deferred_records g entries in
  GetDeferredEventsCallback rt arguments
  = (Normal (VArray ((Some <$> records) ++ replicate (length entries - length records) None)),
     set_global_scope (set_deferred_events [] g) (log_dropped g rt entries)).
Proof.
  simpl. unfold GetDeferredEventsCallback, Array_New.
  pose proof (deferred_fold (global_scope_ rt) (deferred_events_ (global_scope_ rt))
                [] (length (deferred_events_ (global_scope_ rt))) rt) as Hfold.
  simpl in Hfold. rewrite Hfold by done.
  by rewrite log_dropped_global_scope.
Qed.

(** C10. The array [getDeferredEvents] returns is as long as the deferred
    queue, whether or not the types of the entries have a registered event:
    the records of the entries with a registered event fill the indices from
    0, and one hole per dropped entry is left at the end. *)
Theorem GetDeferredEvents_array_length (rt : Runtime) (arguments : list Value) :
  let g := global_scope_ rt in
  let entries := deferred_events_ g in
  let records := deferred_records g entries in
  let dropped := length (filter (fun entry => GetEvent g entry.1 = None) entries) in
  ∃ events,
    (GetDeferredEventsCallback rt arguments).1 = Normal (VArray events)
    ∧ length events = length entries
    ∧ events = (Some <$> records) ++ replicate dropped None.
Proof.
  simpl. rewrite GetDeferredEventsCallback_eq. simpl.
  set (g := global_scope_ rt). set (entries := deferred_events_ g).
  assert (length entries - length (deferred_records g entries)
          = length (filter (fun entry => GetEvent g entry.1 = None) entries))%nat as Hdropped.
  { clearbody entries.
    induction entries as [|e rest IH]; [done|].
    rewrite deferred_records_cons, filter_cons.
    pose proof (length_deferred_records g rest) as Hle.
    destruct (GetEvent g e.1) eqn:He; simpl.
    - done.
    - rewrite <- IH. lia. }
  eexists. split; [done|]. split.
  - rewrite length_app, length_fmap, length_replicate.
    pose proof (length_deferred_records g entries). lia.
  - by rewrite Hdropped.
Qed.

(** What a script receives from [getDeferredEvents]: the elements of the
    returned array, by ascending index, holes left out. *)
Definition yielded (c : Completion) : list Value :=
  match c with
  | Normal (VArray events) => omap id events
  | _ => []
  end.

(** The [type] property of a [{ type, event }] record. *)
Definition record_type (v : Value) : option string :=
  match v with
  | VObject properties =>
      match get_property "type" properties with
      | Some (VString type) => Some type
      | _ => None
      end
  | _ => None
  end.

(** The scope after a sequence of [StoreDeferredEvent] calls. *)
Definition store_all `{Multimap} (stored : list (string * Arguments)) (g : GlobalScope)
  : GlobalScope :=
  foldl (fun g entry => StoreDeferredEvent entry.1 entry.2 g) g stored.

Lemma yielded_records (records : list Value) (holes : nat) :
  omap id ((Some <$> records) ++ replicate holes None) = records.
Proof.
  rewrite omap_app.
  assert (omap id (replicate holes (@None Value)) = []) as ->
    by (induction holes; simpl; done).
  rewrite app_nil_r. induction records as [|r rest IH]; [done|].
  simpl in *. by f_equal.
Qed.

Lemma store_all_events `{Multimap} stored : ∀ g, events_ (store_all stored g) = events_ g.
Proof. induction stored as [|e rest IH]; intros g; simpl; [done|]. by rewrite IH. Qed.

Lemma store_all_perm `{Multimap} stored : ∀ g,
  deferred_events_ (store_all stored g) ≡ₚ deferred_events_ g ++ stored.
Proof.
  induction stored as [|[type arguments] rest IH]; intros g; simpl.
  - by rewrite app_nil_r.
  - rewrite IH. simpl. rewrite mm_insert_perm.
    by rewrite (Permutation_middle (deferred_events_ g) rest (type, arguments)).
Qed.

Lemma deferred_records_events g g' entries :
  events_ g = events_ g' → deferred_records g entries = deferred_records g' entries.
Proof.
  intros Heq. unfold deferred_records. apply list_omap_ext.
  induction entries; constructor; [|done].
  unfold record_of, GetEvent. by rewrite Heq.
Qed.

(** C2 (amended). After any sequence of [StoreDeferredEvent] calls the
    deferred queue holds the entries it held before and the stored ones, in
    the iteration order of the multimap. [getDeferredEvents] then yields one
    [{ type, event }] record for each entry whose type has a registered
    event, in that iteration order: every such entry is delivered exactly
    once, the entries of the other types are dropped, and the queue is empty
    after the call. *)
Theorem deferred_events_drained `{Multimap} (rt : Runtime) (stored : list (string * Arguments)) :
  let g0 := global_scope_ rt in
  let g := store_all stored g0 in
  let result := GetDeferredEventsCallback (set_global_scope g rt) [] in
  deferred_events_ g ≡ₚ deferred_events_ g0 ++ stored
  ∧ yielded result.1 = deferred_records g0 (deferred_events_ g)
  ∧ yielded result.1 ≡ₚ deferred_records g0 (deferred_events_ g0 ++ stored)
  ∧ deferred_events_ (global_scope_ result.2) = [].
Proof.
  simpl. rewrite GetDeferredEventsCallback_eq. simpl.
  rewrite yielded_records.
  rewrite (deferred_records_events (store_all stored (global_scope_ rt)) (global_scope_ rt))
    by apply store_all_events.
  split_and!; try done.
  - apply store_all_perm.
  - unfold deferred_records. by rewrite store_all_perm.
Qed.

(** Whatever the multimap, an entry whose type has no registered event is
    not delivered. *)
Lemma unregistered_entry_dropped `{Multimap} (rt : Runtime) (type : string)
    (arguments : Arguments) :
  deferred_events_ (global_scope_ rt) = [] →
  events_ (global_scope_ rt) !! type = None →
  let g := StoreDeferredEvent type arguments (global_scope_ rt) in
  yielded (GetDeferredEventsCallback (set_global_scope g rt) []).1 = [].
Proof.
  intros Hempty Hnone. simpl.
  rewrite GetDeferredEventsCallback_eq. simpl. rewrite yielded_records, Hempty.
  pose proof (mm_insert_perm (type, arguments) []) as Hperm.
  apply Permutation_singleton_r in Hperm. rewrite Hperm.
  rewrite deferred_records_cons. unfold GetEvent. simpl. by rewrite Hnone.
Qed.

(** C2, as stated, fails. With the events [a] and [b] registered, three
    events are stored in the order [b], [a], [zz]. The claim has
    [getDeferredEvents] yield three records, of the types [b], [a], [zz] in
    this order; with a [std::multimap] it yields two, of the types [a] and
    [b]: the entry of the unregistered type [zz] is dropped, and the other
    two come in the order of their keys. *)
Lemma deferred_events_not_in_insertion_order :
  let events := RegisterEvent "a" {| interface_name := "AEvent" |}
                  (RegisterEvent "b" {| interface_name := "BEvent" |} GlobalScope_new) in
  let stored := [("b", AddInteger "playerid" 1 ∅); ("a", AddInteger "playerid" 2 ∅);
                 ("zz", AddInteger "playerid" 3 ∅)] in
  let g := @store_all std_multimap stored events in
  let result := GetDeferredEventsCallback (set_global_scope g Runtime_Create) [] in
  omap record_type (yielded result.1) = ["a"; "b"]
  ∧ omap record_type (yielded result.1) ≠ stored.*1.
Proof. split; [by vm_compute | by vm_compute]. Qed.

(** ** Dispatch *)

Section Dispatch.

Variable script : Function -> list Action.

(** [GlobalScope::DispatchEvent] returns [false] for a type that has no
    entry in the listener map, and touches nothing. *)
Lemma DispatchEvent_unknown_type (rt : Runtime) (type : string) (event : Value) :
  event_listeners_ (global_scope_ rt) !! type = None →
  DispatchEvent script rt type event = (false, rt, event).
Proof. intros Hnone. unfold DispatchEvent. by rewrite Hnone. Qed.

(** For a type with an entry, it returns the default-prevented flag of the
    event as the listeners have left it. *)
Lemma DispatchEvent_default_prevented (rt : Runtime) (type : string) (event : Value) :
  is_Some (event_listeners_ (global_scope_ rt) !! type) →
  (DispatchEvent script rt type event).1.1
  = DefaultPrevented (DispatchEvent script rt type event).2.
Proof.
  intros [listeners Hl]. unfold DispatchEvent. rewrite Hl.
  by destruct (foldl _ _ _).
Qed.

(** C1. The claim has the script-visible [dispatchEvent] return a boolean.
    [DispatchEventCallback] drops the boolean of
    [GlobalScope::DispatchEvent] and sets no return value: whatever the type
    and the payload, and whether or not the type has listeners, the script
    receives [undefined], which is no boolean. *)
Theorem dispatchEvent_returns_undefined (rt : Runtime) (type : string) (payload : Value) :
  (DispatchEventCallback script rt [VString type; payload]).1 = Normal VUndefined
  ∧ (DispatchEventCallback script rt [VString type]).1 = Normal VUndefined
  ∧ ∀ b, (DispatchEventCallback script rt [VString type; payload]).1 ≠ Normal (VBoolean b).
Proof.
  assert (∀ arguments, arguments = [VString type; payload] ∨ arguments = [VString type] →
            (DispatchEventCallback script rt arguments).1 = Normal VUndefined) as Hret.
  { intros arguments Hargs. unfold DispatchEventCallback.
    destruct Hargs as [-> | ->]; simpl.
    - by destruct (DispatchEvent script rt type _) as [[? ?] ?].
    - by destruct (DispatchEvent script rt type _) as [[? ?] ?]. }
  split_and!.
  - apply Hret. by left.
  - apply Hret. by right.
  - intros b. rewrite Hret by by left. discriminate.
Qed.

(** *** Listeners that leave the list of the dispatched type alone *)

Definition keeps_listeners_of (T : string) (a : Action) : bool :=
  match a with
  | CallAddEventListener type _ => bool_decide (type ≠ T)
  | CallRemoveEventListener type _ => bool_decide (type ≠ T)
  | PreventDefault => true
  | Throw _ => true
  end.

Definition leaves_listeners_of (T : string) (body : list Action) : bool :=
  forallb (keeps_listeners_of T) body.

(** The error a body ends with, if it throws. *)
Fixpoint thrown (body : list Action) : option ScriptError :=
  match body with
  | [] => None
  | Throw error :: _ => Some error
  | _ :: rest => thrown rest
  end.

(** What a run of a function leaves as it was. *)
Definition same_but_scope (T : string) (rt rt' : Runtime) : Prop :=
  event_listeners_ (global_scope_ rt') !! T = event_listeners_ (global_scope_ rt) !! T
  ∧ calls_ rt' = calls_ rt
  ∧ exception_handler_ rt' = exception_handler_ rt.

Lemma run_action_keeps T a rt event :
  keeps_listeners_of T a = true →
  ∃ rt' event',
    run_action a rt event
    = (match a with Throw error => Some error | _ => None end, rt', event')
    ∧ same_but_scope T rt rt'.
Proof.
  intros Hkeep. destruct a as [type listener|type listener| |error]; simpl in *.
  - apply bool_decide_eq_true in Hkeep.
    eexists _, _. split; [done|]. split_and!; try done.
    simpl. by apply AddEventListener_lookup_ne.
  - apply bool_decide_eq_true in Hkeep.
    destruct listener as [f|]; simpl.
    + eexists _, _. split; [done|]. split_and!; try done.
      simpl. by apply RemoveEventListener_lookup_ne.
    + eexists _, _. split; [done|]. split_and!; try done.
      simpl. by apply RemoveEventListener_lookup_ne.
  - eexists _, _. by split.
  - eexists _, _. by split.
Qed.

Lemma run_body_keeps T body : ∀ rt event,
  leaves_listeners_of T body = true →
  ∃ rt' event',
    run_body body rt event = (thrown body, rt', event') ∧ same_but_scope T rt rt'.
Proof.
  induction body as [|a rest IH]; intros rt event Hkeep.
  - eexists _, _. by split.
  - apply andb_true_iff in Hkeep as [Ha Hrest].
    destruct (run_action_keeps T a rt event Ha) as (rt1 & event1 & Hrun & Hsame1).
    simpl. rewrite Hrun. destruct a as [type listener|type listener| |error].
    + destruct (IH rt1 event1 Hrest) as (rt2 & event2 & Hrun2 & Hsame2).
      eexists _, _. split; [done|].
      destruct Hsame1 as (?&?&?), Hsame2 as (?&?&?). split_and!; congruence.
    + destruct (IH rt1 event1 Hrest) as (rt2 & event2 & Hrun2 & Hsame2).
      eexists _, _. split; [done|].
      destruct Hsame1 as (?&?&?), Hsame2 as (?&?&?). split_and!; congruence.
    + destruct (IH rt1 event1 Hrest) as (rt2 & event2 & Hrun2 & Hsame2).
      eexists _, _. split; [done|].
      destruct Hsame1 as (?&?&?), Hsame2 as (?&?&?). split_and!; congruence.
    + eexists _, _. by split.
Qed.

(** The exception handler after a function has run under [Call]. *)
Definition captured (function : Function) (h : ExceptionHandler) : ExceptionHandler :=
  match thrown (script function) with
  | Some error => capture error h
  | None => h
  end.

Lemma Call_keeps T rt function event :
  leaves_listeners_of T (script function) = true →
  ∃ rt' event',
    Call script rt function event = (rt', event')
    ∧ event_listeners_ (global_scope_ rt') !! T = event_listeners_ (global_scope_ rt) !! T
    ∧ calls_ rt' = calls_ rt ++ [(function, event)]
    ∧ exception_handler_ rt' = captured function (exception_handler_ rt).
Proof.
  intros Hkeep. unfold Call, captured.
  destruct (run_body_keeps T (script function)
              (set_calls (calls_ rt ++ [(function, event)]) rt) event Hkeep)
    as (rt1 & event1 & Hrun & Hl & Hc & Hh).
  rewrite Hrun. destruct (thrown (script function)) as [error|].
  - eexists _, _. split; [done|]. simpl in *. split_and!; try done. by rewrite Hh.
  - eexists _, _. split; [done|]. by simpl in *.
Qed.

(** The range-for over the positions of [rest], the part of the vector that
    is still to be visited. *)
Lemma dispatch_loop_keeps T visited rest : ∀ rt event,
  event_listeners_ (global_scope_ rt) !! T = Some (visited ++ rest) →
  forallb (fun f => leaves_listeners_of T (script f)) rest = true →
  ∃ rt' event',
    foldl (dispatch_step script T) (rt, event) (seq (length visited) (length rest))
    = (rt', event')
    ∧ event_listeners_ (global_scope_ rt') !! T = Some (visited ++ rest)
    ∧ (calls_ rt').*1 = (calls_ rt).*1 ++ rest
    ∧ exception_handler_ rt' = foldl (fun h f => captured f h) (exception_handler_ rt) rest.
Proof.
  revert visited. induction rest as [|f rest IH]; intros visited rt event Hl Hkeep.
  - rewrite app_nil_r in Hl. eexists _, _. split; [done|]. by rewrite !app_nil_r.
  - apply andb_true_iff in Hkeep as [Hf Hrest]. simpl.
    assert (listener_at rt T (length visited) = Some f) as ->.
    { unfold listener_at. rewrite Hl. simpl. by apply list_lookup_middle. }
    destruct (Call_keeps T rt f event Hf) as (rt1 & event1 & Hcall & Hl1 & Hc1 & Hh1).
    rewrite Hcall.
    destruct (IH (visited ++ [f]) rt1 event1) as (rt2 & event2 & Hfold & Hl2 & Hc2 & Hh2).
    { by rewrite Hl1, Hl, <- app_assoc. }
    { done. }
    rewrite length_app in Hfold. simpl in Hfold.
    rewrite Nat.add_1_r in Hfold.
    eexists _, _. split; [done|]. split_and!.
    + by rewrite Hl2, <- app_assoc.
    + rewrite Hc2, Hc1, fmap_app, <- app_assoc. done.
    + by rewrite Hh2, Hh1.
Qed.

Lemma captured_queue source rest : ∀ h,
  head (sources_ h) = Some source →
  queue_ (foldl (fun h f => captured f h) h rest)
  = queue_ h ++ omap (fun f => (fun error => (error, source)) <$> thrown (script f)) rest
  ∧ sources_ (foldl (fun h f => captured f h) h rest) = sources_ h.
Proof.
  induction rest as [|f rest IH]; intros h Hsource; simpl.
  - by rewrite app_nil_r.
  - unfold captured at 2 4. destruct (thrown (script f)) as [error|]; simpl.
    + destruct (IH (capture error h)) as [Hq Hs]; [done|].
      rewrite Hq, Hs. simpl. rewrite Hsource. simpl. by rewrite <- app_assoc.
    + by apply IH.
Qed.

(** When no listener of the type changes the list of the type, the
    dispatch enters every listener, in the order of the list, and the
    exception queue gains the error of every listener that throws, tagged
    with the dispatched type. *)
Lemma DispatchEvent_keeps (rt : Runtime) (T : string) (listeners : list Function)
    (event : Value) :
  event_listeners_ (global_scope_ rt) !! T = Some listeners →
  forallb (fun f => leaves_listeners_of T (script f)) listeners = true →
  let rt' := (DispatchEvent script rt T event).1.2 in
  (calls_ rt').*1 = (calls_ rt).*1 ++ listeners
  ∧ queue_ (exception_handler_ rt')
    = queue_ (exception_handler_ rt)
        ++ omap (fun f => (fun error => (error, "dispatched event `" +:+ T +:+ "`"))
                            <$> thrown (script f)) listeners
  ∧ sources_ (exception_handler_ rt') = sources_ (exception_handler_ rt).
Proof.
  intros Hl Hkeep. simpl. unfold DispatchEvent. rewrite Hl.
  set (source := "dispatched event `" +:+ T +:+ "`").
  set (rt0 := set_exception_handler (push_source source (exception_handler_ rt)) rt).
  destruct (dispatch_loop_keeps T [] listeners rt0 event) as (rt1 & event1 & Hfold & _ & Hc & Hh);
    [done|done|].
  simpl in Hfold. rewrite Hfold. simpl.
  destruct (captured_queue source listeners (exception_handler_ rt0)) as [Hq Hs]; [done|].
  rewrite Hh. split_and!; [done| |].
  - by rewrite Hq.
  - by rewrite Hs.
Qed.

End Dispatch.

(** *** Registration order *)

(** [addEventListener(T, f)] called for every [f] of a list. *)
Definition add_listeners (T : string) (functions : list Function) (rt : Runtime) : Runtime :=
  foldl (fun rt f => (AddEventListenerCallback rt [VString T; VFunction f]).2) rt functions.

Lemma HasEventListeners_false (g : GlobalScope) (T : string) :
  HasEventListeners g T = false → default [] (event_listeners_ g !! T) = [].
Proof.
  unfold HasEventListeners. destruct (event_listeners_ g !! T) as [[|f l]|]; simpl; try done.
Qed.

Lemma add_listeners_lookup (T : string) (rest : list Function) : ∀ (f : Function) rt,
  event_listeners_ (global_scope_ (add_listeners T (f :: rest) rt)) !! T
  = Some (default [] (event_listeners_ (global_scope_ rt) !! T) ++ f :: rest).
Proof.
  induction rest as [|f' rest IH]; intros f rt.
  - simpl. by rewrite lookup_insert_eq.
  - change (add_listeners T (f :: f' :: rest) rt)
      with (add_listeners T (f' :: rest)
              (set_global_scope (AddEventListener T f (global_scope_ rt)) rt)).
    rewrite IH. simpl. rewrite lookup_insert_eq. simpl. by rewrite <- app_assoc.
Qed.

Lemma add_listeners_calls (T : string) (functions : list Function) : ∀ rt,
  calls_ (add_listeners T functions rt) = calls_ rt.
Proof. induction functions as [|f rest IH]; intros rt; simpl; [done|]. by rewrite IH. Qed.

(** C5. [addEventListener] appends and does not look for duplicates: when
    [A], [B] and [A] again are added for a type [T] that had no listener,
    the list of [T] is [A; B; A], and [DispatchEvent] for [T] enters [A],
    [B], [A], in this order and nothing else. The listeners are taken not to
    add or remove listeners of [T] themselves. *)
Theorem dispatch_in_registration_order (script : Function -> list Action) (rt : Runtime)
    (T : string) (A B : Function) (event : Value) :
  HasEventListeners (global_scope_ rt) T = false →
  leaves_listeners_of T (script A) = true →
  leaves_listeners_of T (script B) = true →
  let rt1 := add_listeners T [A; B; A] rt in
  event_listeners_ (global_scope_ rt1) !! T = Some [A; B; A]
  ∧ (calls_ (DispatchEvent script rt1 T event).1.2).*1 = (calls_ rt).*1 ++ [A; B; A].
Proof.
  intros Hnone HA HB rt1.
  assert (event_listeners_ (global_scope_ rt1) !! T = Some [A; B; A]) as Hl.
  { subst rt1. rewrite add_listeners_lookup. by rewrite HasEventListeners_false. }
  split; [done|].
  destruct (DispatchEvent_keeps script rt1 T [A; B; A] event Hl) as (Hc & _).
  { simpl. by rewrite HA, HB. }
  rewrite Hc. subst rt1. by rewrite add_listeners_calls.
Qed.

(** A script for the examples: function 1 prevents the default, function 2
    throws, function 3 removes itself from the listeners of [T], and the
    other functions do nothing. *)
Definition oops : ScriptError :=
  {| filename := "main.js"; line_number := 12; message := "Error: oops" |}.

Definition example_script (f : Function) : list Action :=
  match f with
  | 1%nat => [PreventDefault]
  | 2%nat => [Throw oops]
  | 3%nat => [CallRemoveEventListener "T" (Some 3%nat)]
  | _ => []
  end.

Lemma dispatch_in_registration_order_witness :
  let rt1 := add_listeners "T" [1; 2; 1]%nat Runtime_Create in
  event_listeners_ (global_scope_ rt1) !! "T" = Some [1; 2; 1]%nat
  ∧ (calls_ (DispatchEvent example_script rt1 "T" (VObject [])).1.2).*1 = [1; 2; 1]%nat.
Proof.
  apply (dispatch_in_registration_order example_script Runtime_Create "T" 1%nat 2%nat
           (VObject [])); reflexivity.
Defined.

(** *** Exceptions of listeners *)

(** C8. An exception a listener throws during [DispatchEvent] goes to the
    exception queue, tagged with the dispatched type, and the pass goes on:
    every listener of the list is entered, those behind a throwing one
    included, and the queue gains exactly the errors of the listeners that
    throw, in the order of the listeners. The listeners are taken not to add
    or remove listeners of the dispatched type. *)
Theorem listener_exception_is_captured (script : Function -> list Action) (rt : Runtime)
    (T : string) (listeners : list Function) (event : Value) :
  event_listeners_ (global_scope_ rt) !! T = Some listeners →
  forallb (fun f => leaves_listeners_of T (script f)) listeners = true →
  let rt' := (DispatchEvent script rt T event).1.2 in
  (calls_ rt').*1 = (calls_ rt).*1 ++ listeners
  ∧ queue_ (exception_handler_ rt')
    = queue_ (exception_handler_ rt)
        ++ omap (fun f => (fun error => (error, "dispatched event `" +:+ T +:+ "`"))
                            <$> thrown (script f)) listeners.
Proof.
  intros Hl Hkeep.
  destruct (DispatchEvent_keeps script rt T listeners event Hl Hkeep) as (Hc & Hq & _).
  by split.
Qed.

Lemma listener_exception_is_captured_witness :
  let rt := add_listeners "T" [2; 0; 1]%nat Runtime_Create in
  let rt' := (DispatchEvent example_script rt "T" (VObject [])).1.2 in
  (calls_ rt').*1 = [2; 0; 1]%nat
  ∧ queue_ (exception_handler_ rt') = [(oops, "dispatched event `T`")].
Proof.
  apply (listener_exception_is_captured example_script
           (add_listeners "T" [2; 0; 1]%nat Runtime_Create) "T" [2; 0; 1]%nat (VObject []));
    reflexivity.
Defined.

(** *** Removal during dispatch *)

(** C3. The claim has every listener that is in the list when the dispatch
    starts entered once, also when a listener removes listeners of the type.
    [DispatchEvent] walks the vector itself, and [RemoveEventListener]
    erases from that vector: with the listeners [3; 0] of [T], where
    function 3 removes itself, the erase moves function 0 to the place the
    loop has just left, the loop finds an empty handle at the next place,
    and function 0 is never entered. *)
Theorem dispatch_skips_listener_after_removal :
  let rt := add_listeners "T" [3; 0]%nat Runtime_Create in
  let rt' := (DispatchEvent example_script rt "T" VNull).1.2 in
  event_listeners_ (global_scope_ rt) !! "T" = Some [3; 0]%nat
  ∧ (calls_ rt').*1 = [3]%nat
  ∧ log_ rt' = [(WARNING, "[v8] Empty function found for event T")]
  ∧ event_listeners_ (global_scope_ rt') !! "T" = Some [0]%nat.
Proof. by vm_compute. Qed.

(** ** Argument validation *)








(** The part of a [std::string] that [c_str()] shows: the characters in
    front of the first NUL. *)
Fixpoint c_str (s : string) : string :=
  match s with
  | EmptyString => EmptyString
  | String a rest => if decide (a = Ascii.zero) then EmptyString else String a (c_str rest)
  end.

(** [v8String]: [v8::String::NewFromUtf8] of [c_str()]. *)
Definition v8String (s : string) : Value := VString (c_str s).

(** [GlobalScope::ReadFile]. [files] holds the files that can be opened,
    by name. The result is the exception thrown, if any, and the string
    returned. *)
Definition ReadFile (files : gmap string string) (filename : string)
  : option Exception * string :=
  match files !! c_str filename with
  | None =>
      (Some (TypeError ("unable to execute readFile(): file " +:+ filename
                          +:+ " does not exist.")), "")
  | Some content => (None, content)
  end.

(** [string readFile(string filename);] The argument is not checked for
    its type: [toString] takes the characters of [v8::String::Utf8Value],
    the conversion of any value to a string, here [Utf8Value]. *)
Definition ReadFileCallback (Utf8Value : Value -> string) (files : gmap string string)
    (rt : Runtime) (arguments : list Value) : Completion * Runtime :=
  if decide (length arguments = 0%nat) then
    (ThrowException "unable to execute readFile(): 1 argument required, but 0 provided.", rt)
  else
    match ReadFile files (Utf8Value (argument arguments 0)) with
    | (Some exception, _) => (Abrupt exception, rt)
    | (None, content) => (Normal (v8String content), rt)
    end.

(** The string of a value, for the values whose conversion does not depend
    on anything that is left out of [Value]: strings, integers, booleans,
    [null] and [undefined]. *)
Definition Utf8Value_of (v : Value) : string :=
  match v with
  | VString s => s
  | VNumber n => NilZero.string_of_int (Z.to_int n)
  | VBoolean true => "true"
  | VBoolean false => "false"
  | VNull => "null"
  | VUndefined => "undefined"
  | _ => ""
  end.


(** ** Timers *)

(** [a] is resolved before [b]: its deadline is smaller, or the deadlines
    are equal and its promise was created first. *)
Definition resolves_before (a b : Z * Promise) : Prop :=
  a.1 < b.1 ∨ (a.1 = b.1 ∧ (a.2 < b.2)%nat).

(** [a] was put in the queue before [b]: promises are numbered as they are
    created. *)
Definition issued_before (a b : Z * Promise) : Prop := (a.2 < b.2)%nat.

Lemma StronglySorted_filter {A} (R : relation A) (P : A → Prop) `{∀ x, Decision (P x)}
    (l : list A) :
  StronglySorted R l → StronglySorted R (filter P l).
Proof.
  induction l as [|x l IH]; [done|].
  rewrite StronglySorted_cons, filter_cons. intros [Hx Hl].
  destruct (decide (P x)); [|by apply IH].
  apply StronglySorted_cons. split; [|by apply IH].
  apply Forall_forall. intros y [_ Hy]%list_elem_of_filter.
  by eapply Forall_forall in Hx.
Qed.

Lemma StronglySorted_lookup {A} (R : relation A) (l : list A) : ∀ i j x y,
  StronglySorted R l → l !! i = Some x → l !! j = Some y → (i < j)%nat → R x y.
Proof.
  induction l as [|z l IH]; intros i j x y Hs Hi Hj Hlt; [done|].
  apply StronglySorted_cons in Hs as [Hz Hl].
  destruct j as [|j]; [lia|]. destruct i as [|i]; simpl in *.
  - injection Hi as ->. eapply Forall_forall in Hz; [done|].
    by eapply list_elem_of_lookup_2.
  - eapply (IH i j); [done..|lia].
Qed.

Lemma insert_by_deadline_perm (e : Z * Promise) (sorted : TimerQueue) :
  insert_by_deadline e sorted ≡ₚ e :: sorted.
Proof.
  induction sorted as [|x rest IH]; simpl; [done|].
  case_decide; [done|]. rewrite IH. apply Permutation_swap.
Qed.

Lemma in_deadline_order_perm (q : TimerQueue) : in_deadline_order q ≡ₚ q.
Proof.
  induction q as [|e rest IH]; simpl; [done|].
  by rewrite insert_by_deadline_perm, IH.
Qed.

(** An entry issued before all the entries of a sorted list goes to its
    place in the order of resolution. *)
Lemma insert_by_deadline_sorted (e : Z * Promise) (sorted : TimerQueue) :
  Forall (issued_before e) sorted →
  StronglySorted resolves_before sorted →
  StronglySorted resolves_before (insert_by_deadline e sorted).
Proof.
  induction sorted as [|x rest IH]; intros Hissued Hsorted; simpl.
  - repeat constructor.
  - apply Forall_cons in Hissued as [Hx Hrest].
    pose proof Hsorted as Hsorted'.
    apply StronglySorted_cons in Hsorted' as [Hxrest Hsrest].
    case_decide as Hle.
    + apply StronglySorted_cons. split; [|done].
      apply Forall_cons. split.
      * unfold resolves_before, issued_before in *. lia.
      * apply Forall_forall. intros y Hy.
        eapply Forall_forall in Hxrest; [|done].
        eapply Forall_forall in Hrest; [|done].
        unfold resolves_before, issued_before in *. lia.
    + apply StronglySorted_cons. split; [|by apply IH].
      apply Forall_forall. intros y Hy.
      rewrite insert_by_deadline_perm in Hy. apply elem_of_cons in Hy as [-> | Hy].
      * unfold resolves_before. lia.
      * by eapply Forall_forall in Hxrest.
Qed.

(** The entries of a queue, which is in the order of issue, come out in
    the order of resolution. *)
Lemma in_deadline_order_sorted (q : TimerQueue) :
  StronglySorted issued_before q → StronglySorted resolves_before (in_deadline_order q).
Proof.
  induction q as [|e rest IH]; intros Hq; simpl; [constructor|].
  apply StronglySorted_cons in Hq as [He Hrest].
  apply insert_by_deadline_sorted; [|by apply IH].
  apply Forall_forall. intros y Hy. rewrite in_deadline_order_perm in Hy.
  by eapply Forall_forall in He.
Qed.

(** How the resolution of a timer shows in [resolved_promises_]. *)
Definition resolution (e : Z * Promise) : Promise * Value := (e.2, VUndefined).

Lemma Promise_Resolve_frame (promise : Promise) (value : Value) (rt : Runtime) :
  timer_queue_ (Promise_Resolve promise value rt) = timer_queue_ rt
  ∧ clock_ (Promise_Resolve promise value rt) = clock_ rt.
Proof. unfold Promise_Resolve. by destruct (is_resolved promise rt). Qed.

Lemma resolve_all_frame (due : TimerQueue) : ∀ rt,
  let rt' := foldl (fun rt e => Promise_Resolve e.2 VUndefined rt) rt due in
  timer_queue_ rt' = timer_queue_ rt ∧ clock_ rt' = clock_ rt.
Proof.
  induction due as [|e rest IH]; intros rt; simpl; [done|].
  destruct (IH (Promise_Resolve e.2 VUndefined rt)) as [Hq Hc].
  destruct (Promise_Resolve_frame e.2 VUndefined rt) as [Hq' Hc'].
  simpl in *. split; congruence.
Qed.

Lemma OnFrame_clock (rt : Runtime) : clock_ (OnFrame rt) = clock_ rt.
Proof. unfold OnFrame. by rewrite (proj2 (resolve_all_frame _ _)). Qed.

Lemma OnFrame_timer_queue (rt : Runtime) :
  timer_queue_ (OnFrame rt) = TimerQueue_pending (clock_ rt) (timer_queue_ rt).
Proof. unfold OnFrame. by rewrite (proj1 (resolve_all_frame _ _)). Qed.

(** Promises that have not been resolved before are resolved one after the
    other. *)
Lemma resolve_all (due : TimerQueue) : ∀ (resolved : TimerQueue) rt,
  resolved_promises_ rt = resolution <$> resolved →
  NoDup (resolved ++ due).*2 →
  resolved_promises_ (foldl (fun rt e => Promise_Resolve e.2 VUndefined rt) rt due)
  = resolution <$> (resolved ++ due).
Proof.
  induction due as [|e rest IH]; intros resolved rt Hres Hnodup; simpl.
  - by rewrite app_nil_r.
  - assert (is_resolved e.2 rt = false) as Hfresh.
    { unfold is_resolved. apply bool_decide_eq_false.
      rewrite Hres, <- list_fmap_compose.
      rewrite fmap_app in Hnodup. apply NoDup_app in Hnodup as (_ & Hnot & _).
      intros Hin. apply (Hnot e.2 Hin). simpl. left. }
    unfold Promise_Resolve at 2. rewrite Hfresh.
    rewrite (IH (resolved ++ [e])).
    + by rewrite <- app_assoc.
    + simpl. by rewrite Hres, fmap_app.
    + by rewrite <- app_assoc.
Qed.

(** The state of the timers, given all the entries that were ever put in
    the queue: [resolved] lists the entries resolved so far in the order of
    their resolution. *)
Record timer_inv (all resolved : TimerQueue) (rt : Runtime) : Prop := {
  inv_resolved : resolved_promises_ rt = resolution <$> resolved;
  inv_sorted : StronglySorted resolves_before resolved;
  inv_queue : StronglySorted issued_before (timer_queue_ rt);
  inv_apart : ∀ e e', e ∈ resolved → e' ∈ timer_queue_ rt → e.1 < e'.1;
  inv_all : resolved ++ timer_queue_ rt ≡ₚ all;
  inv_nodup : NoDup all.*2;
}.

Lemma advance_clock_inv (all resolved : TimerQueue) (t : Z) (rt : Runtime) :
  timer_inv all resolved rt → timer_inv all resolved (advance_clock t rt).
Proof. intros [? ? ? ? ? ?]. by constructor. Qed.

Lemma OnFrame_inv (all resolved : TimerQueue) (rt : Runtime) :
  timer_inv all resolved rt →
  timer_inv all (resolved ++ TimerQueue_due (clock_ rt) (timer_queue_ rt)) (OnFrame rt).
Proof.
  intros [Hres Hsorted Hqueue Hapart Hall Hnodup].
  set (now := clock_ rt). set (q := timer_queue_ rt).
  assert (∀ e, e ∈ TimerQueue_due now q ↔ e.1 <= now ∧ e ∈ q) as Hdue.
  { intros e. unfold TimerQueue_due. rewrite in_deadline_order_perm.
    by rewrite list_elem_of_filter. }
  assert ((resolved ++ TimerQueue_due now q) ++ TimerQueue_pending now q ≡ₚ all) as Hall'.
  { rewrite <- Hall, <- app_assoc. apply Permutation_app_head.
    unfold TimerQueue_due, TimerQueue_pending. rewrite in_deadline_order_perm.
    apply filter_app_complement. }
  constructor.
  - unfold OnFrame. apply resolve_all; [done|].
    rewrite <- Hall', fmap_app in Hnodup. by apply NoDup_app in Hnodup as (? & _ & _).
  - apply StronglySorted_app_2; [|done|].
    + intros e e' He [_ He']%Hdue. left. by apply Hapart.
    + apply in_deadline_order_sorted. by apply StronglySorted_filter.
  - rewrite OnFrame_timer_queue. by apply StronglySorted_filter.
  - rewrite OnFrame_timer_queue. intros e e' He [Hlate He']%list_elem_of_filter.
    apply elem_of_app in He as [He | [Hdone _]%Hdue].
    + by apply Hapart.
    + fold now in Hlate. lia.
  - by rewrite OnFrame_timer_queue.
  - done.
Qed.

(** The frames that run as the clock reads the times of a list. *)
Definition run_frames (times : list Z) (rt : Runtime) : Runtime :=
  foldl (fun rt t => OnFrame (advance_clock t rt)) rt times.

Lemma run_frames_inv (all : TimerQueue) (times : list Z) : ∀ resolved rt,
  timer_inv all resolved rt → ∃ resolved', timer_inv all resolved' (run_frames times rt).
Proof.
  induction times as [|t rest IH]; intros resolved rt Hinv; simpl; [by eexists|].
  eapply IH. by apply OnFrame_inv, advance_clock_inv.
Qed.

Lemma run_frames_clock (times : list Z) : ∀ rt,
  clock_ rt <= clock_ (run_frames times rt)
  ∧ ∀ t, t ∈ times → t <= clock_ (run_frames times rt).
Proof.
  induction times as [|t rest IH]; intros rt; simpl.
  - split; [lia|]. intros t Ht. by apply elem_of_nil in Ht.
  - destruct (IH (OnFrame (advance_clock t rt))) as [Hle Hall].
    rewrite OnFrame_clock in Hle. simpl in Hle.
    split; [lia|]. intros t' [-> | Ht']%elem_of_cons; [lia|by apply Hall].
Qed.

(** The queue is empty after a frame at which every deadline has passed. *)
Lemma run_frames_empty (all : TimerQueue) (times : list Z) (t : Z) resolved rt :
  timer_inv all resolved rt →
  t ∈ times →
  Forall (fun e => e.1 <= t) all →
  timer_queue_ (run_frames times rt) = [].
Proof.
  intros Hinv Ht Hdue.
  destruct (run_frames_clock times rt) as [_ Hclock]. specialize (Hclock t Ht).
  destruct times as [|t0 times0] using rev_ind; [by apply elem_of_nil in Ht|].
  clear IHtimes0. unfold run_frames in *. rewrite foldl_app in *. simpl in *.
  fold (run_frames times0 rt) in *.
  destruct (run_frames_inv all times0 resolved rt Hinv) as [resolved' Hinv'].
  set (rt' := advance_clock t0 (run_frames times0 rt)) in *.
  rewrite OnFrame_clock in Hclock. rewrite OnFrame_timer_queue.
  pose proof (inv_all _ _ _ (advance_clock_inv _ _ t0 _ Hinv')) as Hall.
  fold rt' in Hall.
  destruct (TimerQueue_pending (clock_ rt') (timer_queue_ rt')) as [|e rest] eqn:Hpending;
    [done|].
  assert (e ∈ TimerQueue_pending (clock_ rt') (timer_queue_ rt')) as He
    by (rewrite Hpending; left).
  apply list_elem_of_filter in He as [Hlate He].
  assert (e ∈ all) as Hin by (rewrite <- Hall; apply elem_of_app; by right).
  eapply Forall_forall in Hdue; [|done]. lia.
Qed.

(** [wait(d)] called for every delay of a list: the completions of the
    calls, and the runtime after them. *)
Definition wait_step (st : list Completion * Runtime) (d : Z) : list Completion * Runtime :=
  let '(c, rt') := WaitCallback st.2 [VNumber d] in (st.1 ++ [c], rt').

Definition issue_waits (delays : list Z) (rt : Runtime) : list Completion * Runtime :=
  foldl wait_step ([], rt) delays.

(** The timer-queue entry of the [i]-th of the calls. *)
Definition issued_entry (now : Z) (first : nat) (i : nat) (d : Z) : Z * Promise :=
  (now + d, (first + i)%nat).

Lemma wait_step_eq (results : list Completion) (rt : Runtime) (d : Z) :
  wait_step (results, rt) d
  = (results ++ [Normal (VPromise (created_promises_ rt))],
     set_timer_queue (timer_queue_ rt ++ [(clock_ rt + d, created_promises_ rt)])
       (set_created_promises (S (created_promises_ rt)) rt)).
Proof. reflexivity. Qed.

Lemma issue_waits_spec (delays : list Z) : ∀ results rt,
  ∃ rt',
    foldl wait_step (results, rt) delays
    = (results ++ imap (fun i _ => Normal (VPromise (created_promises_ rt + i)%nat)) delays,
       rt')
    ∧ timer_queue_ rt'
      = timer_queue_ rt ++ imap (issued_entry (clock_ rt) (created_promises_ rt)) delays
    ∧ clock_ rt' = clock_ rt
    ∧ resolved_promises_ rt' = resolved_promises_ rt.
Proof.
  induction delays as [|d rest IH]; intros results rt.
  - exists rt. simpl. by rewrite !app_nil_r.
  - change (foldl wait_step (results, rt) (d :: rest))
      with (foldl wait_step (wait_step (results, rt) d) rest).
    rewrite wait_step_eq.
    edestruct IH as (rt' & -> & Hq & Hc & Hr). exists rt'.
    rewrite Hq, Hc, Hr. simpl. rewrite <- !app_assoc. simpl. split_and!; try done.
    + rewrite Nat.add_0_r. do 3 f_equal.
      apply imap_ext. intros i x _. simpl. do 2 f_equal. lia.
    + unfold issued_entry at 2. rewrite Nat.add_0_r. do 2 f_equal.
      apply imap_ext. intros i x _. unfold issued_entry. simpl. f_equal. lia.
Qed.

Lemma StronglySorted_by_lookup {A} (R : relation A) (l : list A) :
  (∀ i j x y, l !! i = Some x → l !! j = Some y → (i < j)%nat → R x y) →
  StronglySorted R l.
Proof.
  induction l as [|z l IH]; intros Hl; [constructor|].
  apply StronglySorted_cons. split.
  - apply Forall_forall. intros y [j Hj]%list_elem_of_lookup.
    apply (Hl 0%nat (S j)); [done|done|lia].
  - apply IH. intros i j x y Hi Hj Hlt. apply (Hl (S i) (S j)); [done|done|lia].
Qed.

(** C4. Let [wait(d1)], [wait(d2)], ... be called at one reading of the
    clock, with an empty timer queue and no promise resolved yet, and let
    frames run afterwards, one of them at a time [t] by which every delay
    has passed. The calls return the promises in the order of their
    creation. After the frames the timer queue is empty, every one of the
    promises is resolved exactly once and with no value, and a promise is
    resolved before another one iff its delay is smaller or, when the delays
    are equal, it was issued first.

    The timer queue and the resolution pass are those of the specification. *)
Theorem waits_resolve_in_deadline_order (rt : Runtime) (delays : list Z) (times : list Z)
    (t : Z) :
  timer_queue_ rt = [] →
  resolved_promises_ rt = [] →
  t ∈ times →
  Forall (fun d => clock_ rt + d <= t) delays →
  let first := created_promises_ rt in
  let issued := issue_waits delays rt in
  let rt' := run_frames times issued.2 in
  let order := (resolved_promises_ rt').*1 in
  issued.1 = (fun i => Normal (VPromise (first + i)%nat)) <$> seq 0 (length delays)
  ∧ timer_queue_ rt' = []
  ∧ Forall (fun r => r.2 = VUndefined) (resolved_promises_ rt')
  ∧ order ≡ₚ seq first (length delays)
  ∧ ∀ i j k l dk dl,
      order !! i = Some (first + k)%nat → order !! j = Some (first + l)%nat →
      delays !! k = Some dk → delays !! l = Some dl →
      (i < j)%nat → dk < dl ∨ (dk = dl ∧ (k < l)%nat).
Proof.
  intros Hqueue Hresolved Ht Hdelays first issued rt' order.
  destruct (issue_waits_spec delays [] rt) as (rt1 & Hissued & Hq & Hc & Hr).
  fold (issue_waits delays rt) in Hissued. fold issued in Hissued.
  assert (issued.1 = imap (fun i _ => Normal (VPromise (first + i)%nat)) delays) as Hres
    by by rewrite Hissued.
  assert (issued.2 = rt1) as Hrt1 by by rewrite Hissued.
  rewrite <- Hrt1 in Hq, Hc, Hr. clear Hissued Hrt1 rt1.
  rewrite Hqueue in Hq. rewrite Hresolved in Hr. simpl in Hq. fold first in Hq.
  set (all := imap (issued_entry (clock_ rt) first) delays) in *.
  assert (all.*2 = seq first (length delays)) as Hids.
  { unfold all. rewrite fmap_imap.
    rewrite (imap_ext _ (fun i _ => (first + i)%nat)) by done.
    rewrite (imap_seq_0 delays (Nat.add first)), fmap_add_seq. by rewrite Nat.add_0_r. }
  assert (timer_inv all [] issued.2) as Hinv.
  { constructor.
    - by rewrite Hr.
    - constructor.
    - rewrite Hq. apply StronglySorted_by_lookup. intros i j x y Hi Hj Hlt.
      apply list_lookup_imap_Some in Hi as (di & _ & ->).
      apply list_lookup_imap_Some in Hj as (dj & _ & ->).
      unfold issued_before, issued_entry. simpl. lia.
    - intros e e' He. by apply elem_of_nil in He.
    - by rewrite Hq.
    - rewrite Hids. apply NoDup_seq. }
  destruct (run_frames_inv all times [] issued.2 Hinv) as [resolved Hfinal].
  fold rt' in Hfinal.
  assert (timer_queue_ rt' = []) as Hempty.
  { apply (run_frames_empty all times t [] issued.2 Hinv Ht).
    apply Forall_forall. intros e (i & d & -> & Hd)%elem_of_lookup_imap.
    simpl. eapply Forall_forall in Hdelays; [done|]. by eapply list_elem_of_lookup_2. }
  destruct Hfinal as [Hres' Hsorted _ _ Hall _].
  rewrite Hempty, app_nil_r in Hall.
  assert (order = resolved.*2) as Horder.
  { unfold order. rewrite Hres', <- list_fmap_compose. done. }
  split_and!.
  - rewrite Hres. unfold first. apply imap_seq_0.
  - done.
  - rewrite Hres'. apply Forall_forall. by intros r (e & -> & _)%list_elem_of_fmap.
  - by rewrite Horder, Hall, Hids.
  - intros i j k l dk dl Hi Hj Hk Hl Hlt. rewrite Horder in Hi, Hj.
    rewrite list_lookup_fmap in Hi, Hj.
    destruct (resolved !! i) as [ei|] eqn:Hei; [|done].
    destruct (resolved !! j) as [ej|] eqn:Hej; [|done].
    simpl in Hi, Hj. injection Hi as Hi. injection Hj as Hj.
    pose proof (StronglySorted_lookup _ _ i j ei ej Hsorted Hei Hej Hlt) as Hbefore.
    assert (ei ∈ all) as Hini by (rewrite <- Hall; by eapply list_elem_of_lookup_2).
    assert (ej ∈ all) as Hinj by (rewrite <- Hall; by eapply list_elem_of_lookup_2).
    apply elem_of_lookup_imap in Hini as (k' & dk' & -> & Hk').
    apply elem_of_lookup_imap in Hinj as (l' & dl' & -> & Hl').
    unfold issued_entry in *. simpl in *.
    assert (k' = k) as -> by lia. assert (l' = l) as -> by lia.
    rewrite Hk in Hk'. rewrite Hl in Hl'. injection Hk' as <-. injection Hl' as <-.
    unfold resolves_before in Hbefore. simpl in Hbefore. lia.
Qed.

Lemma waits_resolve_in_deadline_order_witness :
  let issued := issue_waits [30; 10; 30; 20] Runtime_Create in
  let rt' := run_frames [5; 15; 40] issued.2 in
  let order := (resolved_promises_ rt').*1 in
  issued.1 = (fun i => Normal (VPromise (0 + i)%nat)) <$> seq 0 4
  ∧ timer_queue_ rt' = []
  ∧ Forall (fun r => r.2 = VUndefined) (resolved_promises_ rt')
  ∧ order ≡ₚ seq 0 4
  ∧ ∀ i j k l dk dl,
      order !! i = Some (0 + k)%nat → order !! j = Some (0 + l)%nat →
      [30; 10; 30; 20] !! k = Some dk → [30; 10; 30; 20] !! l = Some dl →
      (i < j)%nat → dk < dl ∨ (dk = dl ∧ (k < l)%nat).
Proof.
  apply (waits_resolve_in_deadline_order Runtime_Create [30; 10; 30; 20] [5; 15; 40] 40).
  - reflexivity.
  - reflexivity.
  - apply (bool_decide_unpack _). by vm_compute.
  - apply (bool_decide_unpack _). by vm_compute.
Defined.

(** The run of the witness: the promises 1, 3, 0, 2 are resolved in this
    order, the one of delay 10 at the second frame and the others at the
    third. *)
Example wait_example :
  let issued := issue_waits [30; 10; 30; 20] Runtime_Create in
  (resolved_promises_ (run_frames [5; 15] issued.2)).*1 = [1%nat]
  ∧ (resolved_promises_ (run_frames [5; 15; 40] issued.2)).*1 = [1; 3; 0; 2]%nat.
Proof. by vm_compute. Qed.

(** * Further properties of the global scope *)

(** ** The listener registry, seen through the callbacks *)

Lemma erase_all_idemp (listener : Function) (listeners : list Function) :
  erase_all listener (erase_all listener listeners) = erase_all listener listeners.
Proof.
  induction listeners as [|f rest IH]; simpl; [done|].
  destruct (decide (listener = f)) as [->|Hne]; [done|].
  simpl. rewrite decide_False by done. by rewrite IH.
Qed.

Lemma GlobalScope_eq (g g' : GlobalScope) :
  finalized_ g = finalized_ g' → events_ g = events_ g' →
  deferred_events_ g = deferred_events_ g' → event_listeners_ g = event_listeners_ g' →
  g = g'.
Proof. destruct g, g'; simpl; intros; by subst. Qed.

Lemma AddEventListenerCallback_ok (rt : Runtime) (T : string) (f : Function) :
  AddEventListenerCallback rt [VString T; VFunction f]
  = (Normal VUndefined, set_global_scope (AddEventListener T f (global_scope_ rt)) rt).
Proof. reflexivity. Qed.

Lemma RemoveEventListenerCallback_all (rt : Runtime) (T : string) :
  RemoveEventListenerCallback rt [VString T]
  = (Normal VUndefined, set_global_scope (RemoveEventListener T None (global_scope_ rt)) rt).
Proof. reflexivity. Qed.

Lemma RemoveEventListenerCallback_one (rt : Runtime) (T : string) (A : Function) :
  RemoveEventListenerCallback rt [VString T; VFunction A]
  = (Normal VUndefined,
     set_global_scope (RemoveEventListener T (Some A) (global_scope_ rt)) rt).
Proof. reflexivity. Qed.

Lemma HasEventListenersCallback_ok (rt : Runtime) (T : string) :
  HasEventListenersCallback rt [VString T]
  = (Normal (VBoolean (HasEventListeners (global_scope_ rt) T)), rt).
Proof. reflexivity. Qed.

(** X1. [addEventListener(T, f)] makes [hasEventListener(T)] answer [true];
    [removeEventListener(T)] makes it answer [false]; and after
    [removeEventListener(T, A)] it answers [true] iff a listener other than
    [A] is registered for [T]. [hasEventListener] itself changes nothing. *)
Theorem hasEventListener_follows_registry (rt : Runtime) (T : string) (f A : Function) :
  let listeners := default [] (event_listeners_ (global_scope_ rt) !! T) ++ [f] in
  let rt1 := (AddEventListenerCallback rt [VString T; VFunction f]).2 in
  let rt2 := (RemoveEventListenerCallback rt1 [VString T]).2 in
  let rt3 := (RemoveEventListenerCallback rt1 [VString T; VFunction A]).2 in
  HasEventListenersCallback rt1 [VString T] = (Normal (VBoolean true), rt1)
  ∧ HasEventListenersCallback rt2 [VString T] = (Normal (VBoolean false), rt2)
  ∧ HasEventListenersCallback rt3 [VString T]
    = (Normal (VBoolean (bool_decide (Exists (fun g => g ≠ A) listeners))), rt3).
Proof.
  intros listeners rt1 rt2 rt3.
  rewrite !HasEventListenersCallback_ok. subst rt3 rt2 rt1.
  rewrite RemoveEventListenerCallback_all, RemoveEventListenerCallback_one,
    AddEventListenerCallback_ok.
  set (g := global_scope_ rt) in *.
  assert (event_listeners_ (AddEventListener T f g) !! T = Some listeners) as Hl
    by apply AddEventListener_lookup.
  cbn [snd global_scope_ set_global_scope]. unfold HasEventListeners, RemoveEventListener.
  rewrite !Hl. cbn [event_listeners_ set_event_listeners].
  rewrite lookup_delete_eq, lookup_insert_eq, erase_all_filter.
  split_and!.
  - subst listeners. by destruct (default [] (event_listeners_ g !! T)).
  - done.
  - do 3 f_equal. clear Hl. clearbody listeners. apply bool_decide_ext.
    induction listeners as [|h rest IH]; simpl.
    + split; [lia|]. by intros ?%Exists_nil.
    + rewrite filter_cons, Exists_cons. destruct (decide (h ≠ A)); simpl.
      * split; [by left|lia].
      * rewrite IH. split; [by right|]. by intros [?|?].
Qed.

(** X2. [RemoveEventListener] does nothing for a type that has no entry, and a
    second removal with the same arguments changes nothing any more. *)
Theorem RemoveEventListener_idempotent (T : string) (listener : option Function)
    (g : GlobalScope) :
  (event_listeners_ g !! T = None → RemoveEventListener T listener g = g)
  ∧ RemoveEventListener T listener (RemoveEventListener T listener g)
    = RemoveEventListener T listener g.
Proof.
  split.
  - intros Hnone. unfold RemoveEventListener. by rewrite Hnone.
  - unfold RemoveEventListener at 2 3.
    destruct (event_listeners_ g !! T) as [listeners|] eqn:Hl.
    + destruct listener as [f|].
      * unfold RemoveEventListener. simpl. rewrite lookup_insert_eq.
        apply GlobalScope_eq; simpl; try done.
        by rewrite insert_insert_eq, erase_all_idemp.
      * unfold RemoveEventListener. simpl. by rewrite lookup_delete_eq.
    + unfold RemoveEventListener. by rewrite Hl.
Qed.

Lemma remove_only_listener (T : string) (A : Function) (g : GlobalScope) :
  event_listeners_ g !! T = None →
  event_listeners_ (RemoveEventListener T (Some A) (AddEventListener T A g)) !! T = Some []
  ∧ event_listeners_ (RemoveEventListener T None (AddEventListener T A g)) !! T = None.
Proof.
  intros Hnone. unfold RemoveEventListener.
  rewrite AddEventListener_lookup, Hnone. simpl.
  rewrite lookup_insert_eq, lookup_delete_eq. simpl.
  by rewrite decide_True.
Qed.

(** X3. Removing by handler the only listener of a type leaves an entry with
    an empty list in the map, where [RemoveEventListener(T)] erases the
    entry; [HasEventListeners] is [false] in both cases. *)
Theorem RemoveEventListener_last_listener (T : string) (A : Function) (g : GlobalScope) :
  event_listeners_ g !! T = None →
  let g1 := AddEventListener T A g in
  event_listeners_ (RemoveEventListener T (Some A) g1) !! T = Some []
  ∧ event_listeners_ (RemoveEventListener T None g1) !! T = None
  ∧ HasEventListeners (RemoveEventListener T (Some A) g1) T = false
  ∧ HasEventListeners (RemoveEventListener T None g1) T = false.
Proof.
  intros Hnone. simpl.
  destruct (remove_only_listener T A g Hnone) as [Hempty Herased].
  unfold HasEventListeners. by rewrite Hempty, Herased.
Qed.

Lemma RemoveEventListener_last_listener_witness :
  let g1 := AddEventListener "T" 7%nat GlobalScope_new in
  event_listeners_ (RemoveEventListener "T" (Some 7%nat) g1) !! "T" = Some []
  ∧ event_listeners_ (RemoveEventListener "T" None g1) !! "T" = None
  ∧ HasEventListeners (RemoveEventListener "T" (Some 7%nat) g1) "T" = false
  ∧ HasEventListeners (RemoveEventListener "T" None g1) "T" = false.
Proof. apply (RemoveEventListener_last_listener "T" 7%nat GlobalScope_new). reflexivity. Defined.

(** ** Counting the listeners *)

Lemma count_insert_fresh (m : gmap string (list Function)) (T : string)
    (listeners : list Function) :
  m !! T = None →
  map_fold (fun _ l count => (count + length l)%nat) 0%nat (<[T := listeners]> m)
  = (map_fold (fun _ l count => (count + length l)%nat) 0%nat m + length listeners)%nat.
Proof. intros Hnone. rewrite map_fold_insert_L; [done| |done]. intros. lia. Qed.

Lemma count_lookup (m : gmap string (list Function)) (T : string)
    (listeners : list Function) :
  m !! T = Some listeners →
  map_fold (fun _ l count => (count + length l)%nat) 0%nat m
  = (map_fold (fun _ l count => (count + length l)%nat) 0%nat (delete T m)
     + length listeners)%nat.
Proof. intros Hl. rewrite (map_fold_delete_L _ _ T listeners m); [done| |done]. intros. lia. Qed.

Lemma count_insert (m : gmap string (list Function)) (T : string)
    (listeners : list Function) :
  (map_fold (fun _ l count => (count + length l)%nat) 0%nat (<[T := listeners]> m)
   + length (default [] (m !! T)))%nat
  = (map_fold (fun _ l count => (count + length l)%nat) 0%nat m + length listeners)%nat.
Proof.
  destruct (m !! T) as [old|] eqn:Hold; simpl.
  - rewrite <- insert_delete_eq, count_insert_fresh by apply lookup_delete_eq.
    rewrite (count_lookup m T old) by done. lia.
  - rewrite count_insert_fresh by done. lia.
Qed.

Lemma length_erase_all (A : Function) (listeners : list Function) :
  (length (erase_all A listeners) + length (filter (fun f => f = A) listeners))%nat
  = length listeners.
Proof.
  induction listeners as [|f rest IH]; simpl; [done|].
  rewrite filter_cons. destruct (decide (A = f)) as [->|Hne].
  - rewrite decide_True by done. simpl. lia.
  - rewrite decide_False by naive_solver. simpl. lia.
Qed.

Lemma event_handler_count_add (T : string) (A : Function) (g : GlobalScope) :
  event_handler_count (AddEventListener T A g) = S (event_handler_count g).
Proof.
  unfold event_handler_count, AddEventListener. simpl.
  pose proof (count_insert (event_listeners_ g) T
                (default [] (event_listeners_ g !! T) ++ [A])) as Hc.
  rewrite length_app in Hc. simpl in Hc. lia.
Qed.

(** X4. [event_handler_count] counts every registration, duplicates included:
    [AddEventListener] raises it by one, [RemoveEventListener(T)] lowers it
    by the number of listeners of [T], and [RemoveEventListener(T, A)] by the
    number of times [A] is registered for [T]. *)
Theorem event_handler_count_accounting (T : string) (A : Function) (g : GlobalScope) :
  let listeners := default [] (event_listeners_ g !! T) in
  event_handler_count (AddEventListener T A g) = S (event_handler_count g)
  ∧ (event_handler_count (RemoveEventListener T None g) + length listeners)%nat
    = event_handler_count g
  ∧ (event_handler_count (RemoveEventListener T (Some A) g)
     + length (filter (fun f => f = A) listeners))%nat
    = event_handler_count g.
Proof.
  simpl. split; [apply event_handler_count_add|].
  unfold event_handler_count, RemoveEventListener. split_and!.
  - destruct (event_listeners_ g !! T) as [listeners|] eqn:Hl; simpl; [|lia].
    by rewrite (count_lookup (event_listeners_ g) T listeners).
  - destruct (event_listeners_ g !! T) as [listeners|] eqn:Hl; simpl; [|lia].
    pose proof (count_insert (event_listeners_ g) T (erase_all A listeners)) as Hc.
    rewrite Hl in Hc. simpl in Hc.
    pose proof (length_erase_all A listeners). lia.
Qed.

Lemma count_zero (m : gmap string (list Function)) :
  map_fold (fun _ l count => (count + length l)%nat) 0%nat m = 0%nat
  ↔ ∀ T listeners, m !! T = Some listeners → listeners = [].
Proof.
  induction m as [|T l m Hnone IH] using map_ind.
  - rewrite map_fold_empty. split; [|done]. intros _ T listeners Hl.
    by rewrite lookup_empty in Hl.
  - rewrite count_insert_fresh by done. split.
    + intros Hzero T' listeners Hl.
      destruct (decide (T = T')) as [<-|Hne].
      * rewrite lookup_insert_eq in Hl. injection Hl as <-.
        destruct l; [done|simpl in Hzero; lia].
      * rewrite lookup_insert_ne in Hl by done.
        apply IH in Hl; [done|lia].
    + intros Hall.
      assert (l = []) as -> by (apply (Hall T); apply lookup_insert_eq).
      simpl. rewrite Nat.add_0_r. apply IH. intros T' listeners Hl.
      apply (Hall T'). rewrite lookup_insert_ne; [done|]. intros <-. congruence.
Qed.

(** X5. [VerifyNoEventHandlersLeft] clears the listener map exactly when
    [event_handler_count] is zero; it never changes the count otherwise, and
    it never touches the events or the deferred queue. *)
Theorem VerifyNoEventHandlersLeft_count (g : GlobalScope) :
  let g' := (VerifyNoEventHandlersLeft g).2 in
  (event_handler_count g = 0%nat → event_listeners_ g' = ∅)
  ∧ (event_handler_count g ≠ 0%nat → g' = g)
  ∧ event_handler_count g' = event_handler_count g
  ∧ events_ g' = events_ g
  ∧ deferred_events_ g' = deferred_events_ g.
Proof.
  simpl. unfold VerifyNoEventHandlersLeft.
  pose proof (no_leftover_lines g) as Hiff.
  pose proof (count_zero (event_listeners_ g)) as Hzero.
  fold (event_handler_count g) in Hzero. fold (no_listeners_left g) in Hzero.
  set (lines := omap leftover_warning (map_to_list (event_listeners_ g))) in *.
  destruct (decide (0 < length lines)%nat) as [Hpos|Hnil]; simpl.
  - assert (event_handler_count g ≠ 0%nat) as Hne.
    { intros H%Hzero%Hiff. rewrite H in Hpos. simpl in Hpos. lia. }
    split_and!; done.
  - assert (lines = []) as Hlines by (destruct lines; simpl in *; [done|lia]).
    assert (event_handler_count g = 0%nat) as Hcount by by apply Hzero, Hiff.
    split_and!; done.
Qed.

(** X6. [addEventListener] called for the functions of a list appends them to
    the list of the type in the order of the calls, duplicates included,
    leaves the lists of the other types alone and raises
    [event_handler_count] by the number of calls. *)
Theorem addEventListener_appends (T : string) (functions : list Function) (rt : Runtime) :
  default [] (event_listeners_ (global_scope_ (add_listeners T functions rt)) !! T)
  = default [] (event_listeners_ (global_scope_ rt) !! T) ++ functions
  ∧ (∀ T', T ≠ T' →
       event_listeners_ (global_scope_ (add_listeners T functions rt)) !! T'
       = event_listeners_ (global_scope_ rt) !! T')
  ∧ event_handler_count (global_scope_ (add_listeners T functions rt))
    = (event_handler_count (global_scope_ rt) + length functions)%nat.
Proof.
  revert rt. induction functions as [|f rest IH]; intros rt.
  - simpl. rewrite app_nil_r. split_and!; [done|done|lia].
  - change (add_listeners T (f :: rest) rt)
      with (add_listeners T rest
              (set_global_scope (AddEventListener T f (global_scope_ rt)) rt)).
    destruct (IH (set_global_scope (AddEventListener T f (global_scope_ rt)) rt))
      as (Hl & Hother & Hcount).
    cbn [global_scope_ set_global_scope] in Hl, Hother, Hcount.
    split_and!.
    + rewrite Hl, AddEventListener_lookup. simpl. by rewrite <- app_assoc.
    + intros T' Hne. rewrite Hother by done. by apply AddEventListener_lookup_ne.
    + rewrite Hcount, event_handler_count_add. simpl. lia.
Qed.

Section DispatchWithoutListeners.

Variable script : Function -> list Action.

(** A type whose entry holds an empty list: no function is entered and
    nothing changes, and [DispatchEvent] returns the default-prevented flag
    the event came with. *)
Lemma DispatchEvent_empty_list (rt : Runtime) (type : string) (event : Value) :
  event_listeners_ (global_scope_ rt) !! type = Some [] →
  DispatchEvent script rt type event = (DefaultPrevented event, rt, event).
Proof.
  intros Hl. unfold DispatchEvent. rewrite Hl.
  cbn [length seq foldl]. do 2 f_equal.
  destruct rt as [g q [queue sources] ready clock created resolved calls log].
  reflexivity.
Qed.

(** X7. What [DispatchEvent] returns for a type without listeners depends on
    how the listeners went. After the only listener was removed by handler,
    the entry of the type is still there and the result is the
    default-prevented flag the event came with, [true] for an event that was
    prevented before; after [removeEventListener(T)] the result is [false].
    Nothing is entered and nothing changes in either case. *)
Theorem DispatchEvent_after_removal (rt : Runtime) (T : string) (A : Function)
    (event : Value) :
  event_listeners_ (global_scope_ rt) !! T = None →
  let rt1 := (AddEventListenerCallback rt [VString T; VFunction A]).2 in
  let by_handler := (RemoveEventListenerCallback rt1 [VString T; VFunction A]).2 in
  let all := (RemoveEventListenerCallback rt1 [VString T]).2 in
  DispatchEvent script by_handler T event = (DefaultPrevented event, by_handler, event)
  ∧ DispatchEvent script all T event = (false, all, event).
Proof.
  intros Hnone rt1 by_handler all.
  destruct (remove_only_listener T A (global_scope_ rt) Hnone) as [Hempty Herased].
  split.
  - by apply DispatchEvent_empty_list.
  - by apply DispatchEvent_unknown_type.
Qed.

End DispatchWithoutListeners.

Lemma DispatchEvent_after_removal_witness :
  let event := VObject [("defaultPrevented", VBoolean true)] in
  let rt1 := (AddEventListenerCallback Runtime_Create [VString "T"; VFunction 1%nat]).2 in
  let by_handler := (RemoveEventListenerCallback rt1 [VString "T"; VFunction 1%nat]).2 in
  let all := (RemoveEventListenerCallback rt1 [VString "T"]).2 in
  DispatchEvent example_script by_handler "T" event = (true, by_handler, event)
  ∧ DispatchEvent example_script all "T" event = (false, all, event).
Proof.
  apply (DispatchEvent_after_removal example_script Runtime_Create "T" 1%nat
           (VObject [("defaultPrevented", VBoolean true)])).
  reflexivity.
Defined.

(** ** More on the deferred events *)

Lemma log_dropped_log (g : GlobalScope) (entries : list (string * Arguments)) : ∀ rt,
  log_ (log_dropped g rt entries)
  = log_ rt
      ++ ((fun entry => (ERROR, "Unrecognized event name: " +:+ entry.1
                                  +:+ ". Dropping deferred event."))
            <$> filter (fun entry => GetEvent g entry.1 = None) entries).
Proof.
  induction entries as [|e rest IH]; intros rt; simpl.
  - by rewrite app_nil_r.
  - rewrite IH, filter_cons. destruct (GetEvent g e.1) eqn:He; simpl; [done|].
    by rewrite <- app_assoc.
Qed.

Lemma log_dropped_frame (g : GlobalScope) (entries : list (string * Arguments)) : ∀ rt,
  timer_queue_ (log_dropped g rt entries) = timer_queue_ rt
  ∧ exception_handler_ (log_dropped g rt entries) = exception_handler_ rt
  ∧ resolved_promises_ (log_dropped g rt entries) = resolved_promises_ rt
  ∧ calls_ (log_dropped g rt entries) = calls_ rt.
Proof.
  induction entries as [|e rest IH]; intros rt; simpl; [done|].
  destruct (IH (match GetEvent g e.1 with
                | Some _ => rt
                | None => LOG ERROR ("Unrecognized event name: " +:+ e.1
                                       +:+ ". Dropping deferred event.") rt
                end)) as (-> & -> & -> & ->).
  by destruct (GetEvent g e.1).
Qed.

(** X8. [getDeferredEvents] logs one error for every entry it drops, naming the
    type of the entry, in the order of the iteration; it logs nothing else,
    and it leaves the listeners, the registered events, the timers and the
    exception queue as they were. *)
Theorem getDeferredEvents_log (rt : Runtime) (arguments : list Value) :
  let g := global_scope_ rt in
  let rt' := (GetDeferredEventsCallback rt arguments).2 in
  log_ rt'
  = log_ rt
      ++ ((fun entry => (ERROR, "Unrecognized event name: " +:+ entry.1
                                  +:+ ". Dropping deferred event."))
            <$> filter (fun entry => GetEvent g entry.1 = None) (deferred_events_ g))
  ∧ event_listeners_ (global_scope_ rt') = event_listeners_ g
  ∧ events_ (global_scope_ rt') = events_ g
  ∧ timer_queue_ rt' = timer_queue_ rt
  ∧ exception_handler_ rt' = exception_handler_ rt.
Proof.
  simpl. rewrite GetDeferredEventsCallback_eq. simpl.
  destruct (log_dropped_frame (global_scope_ rt) (deferred_events_ (global_scope_ rt)) rt)
    as (-> & -> & _).
  by rewrite log_dropped_log.
Qed.

(** X9. A second [getDeferredEvents] right after a first one returns an empty
    array and changes nothing: no entry is delivered twice. *)
Theorem getDeferredEvents_twice (rt : Runtime) (arguments arguments' : list Value) :
  let rt' := (GetDeferredEventsCallback rt arguments).2 in
  GetDeferredEventsCallback rt' arguments' = (Normal (VArray []), rt').
Proof.
  simpl. rewrite !GetDeferredEventsCallback_eq. simpl. reflexivity.
Qed.

(** X10. The event of a deferred entry is looked up when the queue is drained,
    not when the entry is stored: an entry stored before its type was
    registered is delivered, built by the event that was registered last. *)
Theorem deferred_event_uses_event_at_drain `{Multimap} (rt : Runtime) (T : string)
    (arguments : Arguments) (first second : Event) :
  deferred_events_ (global_scope_ rt) = [] →
  let g := RegisterEvent T second
             (RegisterEvent T first (StoreDeferredEvent T arguments (global_scope_ rt))) in
  yielded (GetDeferredEventsCallback (set_global_scope g rt) []).1
  = [deferred_record T second arguments].
Proof.
  intros Hempty. simpl. rewrite GetDeferredEventsCallback_eq. simpl.
  rewrite yielded_records, Hempty.
  pose proof (mm_insert_perm (T, arguments) []) as Hperm.
  apply Permutation_singleton_r in Hperm. rewrite Hperm.
  rewrite deferred_records_cons. unfold GetEvent. simpl.
  by rewrite lookup_insert_eq.
Qed.

Lemma deferred_event_uses_event_at_drain_witness :
  let arguments := AddInteger "playerid" 4 ∅ in
  let g := RegisterEvent "playerconnect" {| interface_name := "PlayerEvent" |}
             (RegisterEvent "playerconnect" {| interface_name := "Event" |}
                (@StoreDeferredEvent std_multimap "playerconnect" arguments
                   (global_scope_ Runtime_Create))) in
  yielded (GetDeferredEventsCallback (set_global_scope g Runtime_Create) []).1
  = [deferred_record "playerconnect" {| interface_name := "PlayerEvent" |} arguments].
Proof.
  apply (@deferred_event_uses_event_at_drain std_multimap Runtime_Create "playerconnect"
           (AddInteger "playerid" 4 ∅) {| interface_name := "Event" |}
           {| interface_name := "PlayerEvent" |}).
  reflexivity.
Defined.

(** ** Runtime statistics *)

(** [ADD_NUMBER(name, value)]: [object->Set] of a number. *)
Definition ADD_NUMBER (name : string) (value : nat) (object : list (string * Value))
  : list (string * Value) :=
  set_property name (VNumber (Z.of_nat value)) object.

(** [object getRuntimeStatistics();] The [size()] of the exception handler
    and of the timer queue is the number of their entries. *)
Definition GetRuntimeStatisticsCallback (rt : Runtime) (arguments : list Value)
  : Completion * Runtime :=
  let global := global_scope_ rt in
  let object := [] in
  let object := ADD_NUMBER "deferred_event_queue_size" (length (deferred_events_ global)) object in
  let object := ADD_NUMBER "event_handler_size" (event_handler_count global) object in
  let object := ADD_NUMBER "exception_handler_queue_size"
                  (length (queue_ (exception_handler_ rt))) object in
  let object := ADD_NUMBER "timer_queue_size" (length (timer_queue_ rt)) object in
  (Normal (VObject object), rt).

(** The object of four counts. *)
Definition statistics (deferred handlers exceptions timers : nat) : Value :=
  VObject [("deferred_event_queue_size", VNumber (Z.of_nat deferred));
           ("event_handler_size", VNumber (Z.of_nat handlers));
           ("exception_handler_queue_size", VNumber (Z.of_nat exceptions));
           ("timer_queue_size", VNumber (Z.of_nat timers))].

Lemma GetRuntimeStatisticsCallback_eq (rt : Runtime) (arguments : list Value) :
  GetRuntimeStatisticsCallback rt arguments
  = (Normal (statistics (length (deferred_events_ (global_scope_ rt)))
                        (event_handler_count (global_scope_ rt))
                        (length (queue_ (exception_handler_ rt)))
                        (length (timer_queue_ rt))), rt).
Proof. reflexivity. Qed.

Lemma WaitCallback_ok (rt : Runtime) (d : Z) :
  WaitCallback rt [VNumber d]
  = (Normal (VPromise (created_promises_ rt)),
     set_timer_queue (timer_queue_ rt ++ [(clock_ rt + d, created_promises_ rt)])
       (set_created_promises (S (created_promises_ rt)) rt)).
Proof. reflexivity. Qed.

(** X11. [getRuntimeStatistics] changes nothing, and the counts it reports
    follow the other calls: a successful [addEventListener] raises the
    number of event handlers by one, a successful [wait] raises the number
    of timers by one, [getDeferredEvents] brings the size of the deferred
    queue to zero, and each of these calls leaves the other counts as they
    were. *)
Theorem statistics_follow_calls (rt : Runtime) (T : string) (f : Function) (d : Z)
    (arguments : list Value) :
  ∃ deferred handlers exceptions timers,
    GetRuntimeStatisticsCallback rt arguments
    = (Normal (statistics deferred handlers exceptions timers), rt)
    ∧ (GetRuntimeStatisticsCallback
         (AddEventListenerCallback rt [VString T; VFunction f]).2 arguments).1
      = Normal (statistics deferred (S handlers) exceptions timers)
    ∧ (GetRuntimeStatisticsCallback (WaitCallback rt [VNumber d]).2 arguments).1
      = Normal (statistics deferred handlers exceptions (S timers))
    ∧ (GetRuntimeStatisticsCallback (GetDeferredEventsCallback rt []).2 arguments).1
      = Normal (statistics 0 handlers exceptions timers).
Proof.
  eexists _, _, _, _. split; [apply GetRuntimeStatisticsCallback_eq|].
  rewrite !GetRuntimeStatisticsCallback_eq. split_and!.
  - rewrite AddEventListenerCallback_ok. cbn [fst snd global_scope_ set_global_scope].
    rewrite event_handler_count_add. reflexivity.
  - rewrite WaitCallback_ok.
    cbn [fst snd global_scope_ timer_queue_ exception_handler_ set_timer_queue
         set_created_promises].
    rewrite length_app. simpl. by rewrite Nat.add_1_r.
  - rewrite GetDeferredEventsCallback_eq. cbn [fst snd].
    destruct (log_dropped_frame (global_scope_ rt) (deferred_events_ (global_scope_ rt)) rt)
      as (Hq & Hh & _).
    cbn [global_scope_ timer_queue_ exception_handler_ set_global_scope].
    by rewrite Hq, Hh.
Qed.

(** ** The end of a test run *)

(** [static_cast<unsigned int>] of a 64-bit integer. *)
Definition to_unsigned_int (n : Z) : Z := n mod 2 ^ 32.

(** [GetInt64]: the integer of a number. *)
Definition GetInt64 (v : Value) : Z :=
  match v with VNumber n => n | _ => 0 end.

(** Modelled from the spec: [Runtime::SetReady] (bindings/runtime.cc is not
    among the sources) "sets readiness true". *)
Definition SetReady (rt : Runtime) : Runtime :=
  {| global_scope_ := global_scope_ rt; timer_queue_ := timer_queue_ rt;
     exception_handler_ := exception_handler_ rt; is_ready_ := true;
     clock_ := clock_ rt; created_promises_ := created_promises_ rt;
     resolved_promises_ := resolved_promises_ rt; calls_ := calls_ rt; log_ := log_ rt |}.

(** [void reportTestsFinished(int totalTests, int failedTests);]
    [pAMXFunctions] tells whether the plugin runs in a server (the pointer is
    set) or in the test runner (it is null), [delegate] whether the runtime
    has a delegate. Beside the completion and the runtime, the result holds
    the arguments of the call of [OnScriptTestsDone], if it is made. *)
Definition ReportTestsFinishedCallback (pAMXFunctions delegate : bool) (rt : Runtime)
    (arguments : list Value) : Completion * Runtime * option (Z * Z) :=
  if decide (length arguments ≠ 2%nat) then
    (ThrowException ("unable to execute reportTestsFinished(): 2 argument required, but only"
                       +:+ to_string (length arguments) +:+ " provided."), rt, None)
  else if negb (IsNumber (argument arguments 0)) || negb (IsNumber (argument arguments 1)) then
    (ThrowException "unable to execute reportTestsFinished(): expected numbers as arguments.",
     rt, None)
  else
    let total_tests := to_unsigned_int (GetInt64 (argument arguments 0)) in
    let failed_tests := to_unsigned_int (GetInt64 (argument arguments 1)) in
    let '(lines, global) := VerifyNoEventHandlersLeft (global_scope_ rt) in
    let rt := set_global_scope global (set_log (log_ rt ++ lines) rt) in
    let done := if delegate then Some (total_tests, failed_tests) else None in
    if negb pAMXFunctions then
      (ThrowException "The Test Runner is done- all's good, thanks for using this tool!",
       SetReady rt, done)
    else (Normal VUndefined, rt, done).

(** X12. [reportTestsFinished(total, failed)] with two numbers hands the counts
    to the delegate reduced modulo 2^32, and leaves an empty listener map
    iff no listener was left. In a server it completes normally and the
    readiness flag keeps its value; in the test runner it sets the runtime
    ready and then completes with a TypeError, after it has done all of its
    work. *)
Theorem reportTestsFinished_effects (pAMXFunctions delegate : bool) (rt : Runtime)
    (total failed : Z) :
  let result := ReportTestsFinishedCallback pAMXFunctions delegate rt
                  [VNumber total; VNumber failed] in
  let rt' := result.1.2 in
  result.2 = (if delegate then Some (total mod 2 ^ 32, failed mod 2 ^ 32) else None)
  ∧ (event_listeners_ (global_scope_ rt') = ∅ ↔ no_listeners_left (global_scope_ rt))
  ∧ (if pAMXFunctions
     then result.1.1 = Normal VUndefined ∧ is_ready_ rt' = is_ready_ rt
     else result.1.1
          = Abrupt (TypeError "The Test Runner is done- all's good, thanks for using this tool!")
          ∧ is_ready_ rt' = true).
Proof.
  simpl. unfold ReportTestsFinishedCallback. simpl.
  pose proof (no_leftover_lines (global_scope_ rt)) as Hiff.
  unfold VerifyNoEventHandlersLeft.
  set (lines := omap leftover_warning (map_to_list (event_listeners_ (global_scope_ rt)))) in *.
  assert (∀ m : gmap string (list Function),
            m = event_listeners_ (global_scope_ rt) → (0 < length lines)%nat →
            m = ∅ ↔ no_listeners_left (global_scope_ rt)) as Hleft.
  { intros m -> Hpos. split.
    - intros Hempty T listeners Hl. rewrite Hempty in Hl. by rewrite lookup_empty in Hl.
    - intros Hnone%Hiff. rewrite Hnone in Hpos. simpl in Hpos. lia. }
  destruct (decide (0 < length lines)%nat) as [Hpos|Hnil].
  - destruct pAMXFunctions, delegate; simpl; split_and!; try done; by apply Hleft.
  - assert (no_listeners_left (global_scope_ rt)) as Hnone.
    { apply Hiff. destruct lines; simpl in *; [done|lia]. }
    destruct pAMXFunctions, delegate; simpl; split_and!; done.
Qed.

(** ** Subprocesses *)

(** The loop of [ExecCallback] over the arguments behind the command: [i]
    is the index of the first of [rest], [args] the strings collected so
    far. The result is the exception of a rejected argument, or all the
    strings. *)
Fixpoint exec_arguments (i : nat) (rest : list Value) (args : list string)
  : Completion + list string :=
  match rest with
  | [] => inr args
  | v :: rest =>
      if negb (IsString v) then
        inl (ThrowException ("unable to execute exec(): expected a string for argument "
                               +:+ to_string (i + 1) +:+ "."))
      else exec_arguments (S i) rest (args ++ [toString v])
  end.

(** [Promise<{ exitCode, output, error }> exec(string command, ...arguments);]
    Beside the completion and the runtime, the result holds the arguments of
    the call of [Execute], if it is made: the command, its arguments and the
    promise to resolve. *)
Definition ExecCallback (rt : Runtime) (arguments : list Value)
  : Completion * Runtime * option (string * list string * Promise) :=
  if decide (length arguments = 0%nat) then
    (ThrowException "unable to execute exec(): 1 arguments required, but none provided.",
     rt, None)
  else if negb (IsString (argument arguments 0)) then
    (ThrowException "unable to execute exec(): expected a string for argument 1.", rt, None)
  else
    let command := toString (argument arguments 0) in
    match exec_arguments 1 (drop 1 arguments) [] with
    | inl exception => (exception, rt, None)
    | inr args =>
        let '(promise, rt) := Promise_new rt in
        (Normal (VPromise promise), rt, Some (command, args, promise))
    end.

Lemma exec_arguments_strings (rest : list string) : ∀ i args,
  exec_arguments i (VString <$> rest) args = inr (args ++ rest).
Proof.
  induction rest as [|s rest IH]; intros i args; simpl.
  - by rewrite app_nil_r.
  - rewrite IH. by rewrite <- app_assoc.
Qed.

Lemma exec_arguments_rejected (strings : list string) (v : Value) (rest : list Value) :
  ∀ i args,
  IsString v = false →
  exec_arguments i ((VString <$> strings) ++ v :: rest) args
  = inl (ThrowException ("unable to execute exec(): expected a string for argument "
                           +:+ to_string (i + length strings + 1) +:+ ".")).
Proof.
  induction strings as [|s strings IH]; intros i args Hv; simpl.
  - rewrite Hv. simpl. by rewrite Nat.add_0_r.
  - rewrite IH by done.
    by replace (i + S (length strings) + 1)%nat with (S i + length strings + 1)%nat by lia.
Qed.

(** X13. [exec] takes strings only. Called with a command and string arguments
    it creates one promise, hands the command, the arguments in their order
    and the promise to [Execute], and returns the promise. When some
    argument is not a string, the TypeError names the position of the first
    such argument, counted from 1, no promise is created and nothing is
    executed. *)
Theorem exec_takes_strings (rt : Runtime) (strings : list string) (v : Value)
    (rest : list Value) (command : string) (args : list string) :
  IsString v = false →
  ExecCallback rt ((VString <$> strings) ++ v :: rest)
  = (Abrupt (TypeError ("unable to execute exec(): expected a string for argument "
                          +:+ to_string (length strings + 1) +:+ ".")), rt, None)
  ∧ ExecCallback rt (VString <$> command :: args)
    = (Normal (VPromise (created_promises_ rt)),
       set_created_promises (S (created_promises_ rt)) rt,
       Some (command, args, created_promises_ rt)).
Proof.
  intros Hv. split.
  - unfold ExecCallback, argument. destruct strings as [|s strings]; simpl.
    + by rewrite Hv.
    + rewrite drop_0, exec_arguments_rejected by done.
      by replace (1 + length strings + 1)%nat with (S (length strings) + 1)%nat by lia.
  - unfold ExecCallback, argument. simpl. by rewrite drop_0, exec_arguments_strings.
Qed.

Lemma exec_takes_strings_witness :
  ExecCallback Runtime_Create ((VString <$> ["ls"; "-l"]) ++ VNumber 3 :: [VString "x"])
  = (Abrupt (TypeError ("unable to execute exec(): expected a string for argument "
                          +:+ to_string (length ["ls"; "-l"] + 1) +:+ ".")),
     Runtime_Create, None)
  ∧ ExecCallback Runtime_Create (VString <$> "ls" :: ["-l"; "/tmp"])
    = (Normal (VPromise (created_promises_ Runtime_Create)),
       set_created_promises (S (created_promises_ Runtime_Create)) Runtime_Create,
       Some ("ls", ["-l"; "/tmp"], created_promises_ Runtime_Create)).
Proof.
  apply (exec_takes_strings Runtime_Create ["ls"; "-l"] (VNumber 3) [VString "x"]
           "ls" ["-l"; "/tmp"]).
  reflexivity.
Defined.

(** ** Traces *)

(** [void startTrace();] Of [performance::TraceManager] the callbacks use
    the flag that [set_enabled] sets, which is carried beside the runtime. *)
Definition StartTraceCallback (rt : Runtime) (enabled : bool) (arguments : list Value)
  : Completion * Runtime * bool :=
  (Normal VUndefined, LOG INFO "[TraceManager] Started capturing traces." rt, true).

(** [void stopTrace(optional string filename);] The last component of the
    result is the file [TraceManager::Write] is asked to write the traces
    to, if it is called. *)
Definition StopTraceCallback (rt : Runtime) (enabled : bool) (arguments : list Value)
  : Completion * Runtime * bool * option string :=
  let rt := LOG INFO "[TraceManager] Stopped capturing traces." rt in
  let enabled := false in
  if decide (length arguments = 0%nat) then (Normal VUndefined, rt, enabled, None)
  else if negb (IsString (argument arguments 0)) then
    (ThrowException "unable to execute stopTrace(): expected a string for argument 1.",
     rt, enabled, None)
  else
    let filename := toString (argument arguments 0) in
    if decide (String.length filename = 0%nat) then
      (ThrowException
         "unable to execute stopTrace(): expected a non-empty string for argument 1.",
       rt, enabled, None)
    else (Normal VUndefined, rt, enabled, Some filename).

(** X14. [stopTrace] turns the capturing of traces off before it looks at its
    arguments: tracing is off after every call, also after one that reports
    a TypeError. The traces are written iff the first argument is a
    non-empty string, and a TypeError is reported iff there is a first
    argument and nothing is written. *)
Theorem stopTrace_disables_first (rt : Runtime) (enabled : bool) (arguments : list Value) :
  let result := StopTraceCallback rt enabled arguments in
  result.1.2 = false
  ∧ log_ result.1.1.2 = log_ rt ++ [(INFO, "[TraceManager] Stopped capturing traces.")]
  ∧ (∀ filename, result.2 = Some filename
                 ↔ filename ≠ "" ∧ ∃ rest, arguments = VString filename :: rest)
  ∧ ((∃ text, result.1.1.1 = Abrupt (TypeError text)) ↔ arguments ≠ [] ∧ result.2 = None).
Proof.
  unfold StopTraceCallback, argument, ThrowException.
  destruct arguments as [|v rest]; simpl.
  - split_and!; try done.
    + intros filename. split; [done|]. by intros [_ [? ?]].
    + split; [by intros [? ?]|]. by intros [? _].
  - destruct v; simpl;
      try (split_and!; [done|done| |];
           [intros filename; split; [done|]; by intros [_ [? ?]]
           |split; [done|]; intros _; by eexists]).
    destruct s as [|a s]; simpl.
    + split_and!; try done.
      * intros filename. split; [done|]. intros [Hne [? Heq]]. by injection Heq as <- _.
      * split; [done|]. intros _. by eexists.
    + split_and!; try done.
      * intros filename. split.
        -- intros [= <-]. split; [done|]. by eexists.
        -- intros [_ [? Heq]]. by injection Heq as <- _.
      * split; [by intros [? ?]|]. by intros [_ ?].
Qed.

(** * The native functions of the global scope *)

Module Bridge.

(** The functions [GlobalScope::InstallPrototypes] installs from
    [global_callbacks.cc]. *)
Inductive Name :=
| addEventListener | dispatchEvent | hasEventListener | removeEventListener
| clearModuleCache | frameCounter | flushExceptionQueue | getDeferredEvents
| getRuntimeStatistics | highResolutionTime | pawnInvoke | provideNative
| startTrace | stopTrace | toggleMemoryLogging | wait | exec
| atob | btoa
| hmac | signMessage | verifyMessage
| isPlayerMinimized
| reportTestsFinished | notifyReady | killServer
| glob | readFile.

(** What a callback does to the world outside the runtime. [Outside] stands
    for the part of a callback that runs in code which is not among the
    sources (OpenSSL, the file search, the module cache, the natives of the
    server, the plugin controller); it is reached behind the argument checks
    of the callback only. *)
Inductive Effect :=
| TraceManager_set_enabled (enabled : bool)
| TraceManager_Write (file : string)
| toggle_debugMemoryAllocations
| Execute (command : string) (args : list string) (promise : Promise)
| OnScriptTestsDone (total_tests failed_tests : Z)
| Outside (native : Name) (arguments : list Value).

(** How a call ends: the callback returns to the script, with a completion,
    the runtime and the effects it had, or the process exits. *)
Inductive Outcome :=
| Returned (completion : Completion) (rt : Runtime) (effects : list Effect)
| Exited (status : Z).

(** [arguments[i]->IsInt32()] *)
Definition IsInt32 (v : Value) : bool :=
  match v with
  | VNumber n => bool_decide (- 2 ^ 31 <= n < 2 ^ 31)
  | _ => false
  end.

Section Natives.

(** The script that is loaded; whether [pAMXFunctions] is set; whether the
    runtime has a delegate; whether traces are being captured; the
    conversion of a value to a string; the files that can be opened; and the
    completion and the runtime that the code outside the sources leaves. *)
Variable script : Function -> list Action.
Variable pAMXFunctions : bool.
Variable delegate : bool.
Variable tracing : bool.
Variable Utf8Value : Value -> string.
Variable files : gmap string string.
Variable outside : Name -> Runtime -> list Value -> Completion * Runtime.

(** [ThrowException(message); return;] *)
Definition reject (message : string) (rt : Runtime) : Outcome :=
  Returned (ThrowException message) rt [].

Definition external (native : Name) (rt : Runtime) (arguments : list Value) : Outcome :=
  let '(completion, rt') := outside native rt arguments in
  Returned completion rt' [Outside native arguments].

Definition returned (result : Completion * Runtime) : Outcome :=
  Returned result.1 result.2 [].

(** [string atob(string data);] *)
Definition Base64DecodeCallback (rt : Runtime) (arguments : list Value) : Outcome :=
  if decide (length arguments < 1)%nat then
    reject "unable to execute atob(): 1 argument required, none provided." rt
  else if negb (IsString (argument arguments 0)) then
    reject "unable to execute atob(): expected a string for argument 1." rt
  else external atob rt arguments.

(** [string btoa(string data);] Its messages name [atob]. *)
Definition Base64EncodeCallback (rt : Runtime) (arguments : list Value) : Outcome :=
  if decide (length arguments < 1)%nat then
    reject "unable to execute atob(): 1 argument required, none provided." rt
  else if negb (IsString (argument arguments 0)) then
    reject "unable to execute atob(): expected a string for argument 1." rt
  else external btoa rt arguments.

(** [void clearModuleCache(string prefix);] *)
Definition ClearModuleCacheCallback (rt : Runtime) (arguments : list Value) : Outcome :=
  if decide (length arguments < 1)%nat then
    reject "unable to execute clearModuleCache(): 1 arguments required, but none provided." rt
  else if negb (IsString (argument arguments 0)) then
    reject "unable to execute clearModuleCache(): expected a string for argument 1." rt
  else external clearModuleCache rt arguments.

(** [sequence<string> glob(string base, string pattern);] *)
Definition GlobCallback (rt : Runtime) (arguments : list Value) : Outcome :=
  if decide (length arguments < 2)%nat then
    reject ("unable to execute glob(): 2 arguments required, but only "
              +:+ to_string (length arguments) +:+ " provided.") rt
  else if negb (IsString (argument arguments 0)) then
    reject "unable to execute glob(): expected a string for argument 1." rt
  else if negb (IsString (argument arguments 1)) then
    reject "unable to execute glob(): expected a string for argument 2." rt
  else external glob rt arguments.

(** [string hmac(string privateKey, string message);] *)
Definition HmacCallback (rt : Runtime) (arguments : list Value) : Outcome :=
  if decide (length arguments < 2)%nat then
    reject ("unable to execute hmac(): 2 argument required, but only "
              +:+ to_string (length arguments) +:+ " provided.") rt
  else if negb (IsString (argument arguments 0)) then
    reject "unable to execute hmac(): expected a string for argument 1." rt
  else if negb (IsString (argument arguments 1)) then
    reject "unable to execute hmac(): expected a string for argument 2." rt
  else external hmac rt arguments.

(** [bool isPlayerMinimized(playerId [, currentTime]);] *)
Definition IsPlayerMinimizedCallback (rt : Runtime) (arguments : list Value) : Outcome :=
  if decide (length arguments = 0)%nat then
    reject "unable to execute isPlayerMinimized(): 1 argument required, but only 0 provided." rt
  else if negb (IsInt32 (argument arguments 0)) then
    reject "unable to execute isPlayerMinimized(): expected an integer for argument 1." rt
  else external isPlayerMinimized rt arguments.

(** [any pawnInvoke(string name[, string signature[, ...]]);] The callback
    counts the arguments; the rest is [PawnInvoke::Call]. *)
Definition PawnInvokeCallback (rt : Runtime) (arguments : list Value) : Outcome :=
  if decide (length arguments = 0)%nat then
    reject "unable to execute pawnInvoke(): 1 argument required, but 0 provided." rt
  else external pawnInvoke rt arguments.

(** [void provideNative(string name, string parameters, function handler);]
    The registration itself, and the exception when it fails, lie outside. *)
Definition ProvideNativeCallback (rt : Runtime) (arguments : list Value) : Outcome :=
  if negb pAMXFunctions then
    reject "unable to register natives in the test runner." rt
  else if decide (length arguments ≠ 3)%nat then
    reject ("unable to execute provideNative(): 3 argument required, but only "
              +:+ to_string (length arguments) +:+ " provided.") rt
  else if negb (IsString (argument arguments 0)) then
    reject "unable to execute provideNative(): expected a string for argument 1." rt
  else if negb (IsString (argument arguments 1)) then
    reject "unable to execute provideNative(): expected a string for argument 2." rt
  else if negb (IsFunction (argument arguments 2)) then
    reject "unable to execute provideNative(): expected a function for argument 3." rt
  else external provideNative rt arguments.

(** [string signMessage(string privateKey, string plaintext);] *)
Definition SignMessageCallback (rt : Runtime) (arguments : list Value) : Outcome :=
  if decide (length arguments < 2)%nat then
    reject ("unable to execute signMessage(): 2 arguments required, but only "
              +:+ to_string (length arguments) +:+ " provided.") rt
  else if negb (IsString (argument arguments 0)) then
    reject "unable to execute signMessage(): expected a string for argument 1." rt
  else if negb (IsString (argument arguments 1)) then
    reject "unable to execute signMessage(): expected a string for argument 2." rt
  else external signMessage rt arguments.

(** [bool verifyMessage(string publicKey, string signature, string message);] *)
Definition VerifyMessageCallback (rt : Runtime) (arguments : list Value) : Outcome :=
  if decide (length arguments < 3)%nat then
    reject ("unable to execute verifyMessage(): 3 arguments required, but only "
              +:+ to_string (length arguments) +:+ " provided.") rt
  else if negb (IsString (argument arguments 0)) then
    reject "unable to execute verifyMessage(): expected a string for argument 1." rt
  else if negb (IsString (argument arguments 1)) then
    reject "unable to execute verifyMessage(): expected a string for argument 2." rt
  else if negb (IsString (argument arguments 2)) then
    reject "unable to execute verifyMessage(): expected a string for argument 3." rt
  else external verifyMessage rt arguments.

(** [double highResolutionTime();] *)
Definition HighResolutionTimeCallback (rt : Runtime) (arguments : list Value) : Outcome :=
  Returned (Normal (VNumber (clock_ rt))) rt [].

(** [void notifyReady();] *)
Definition NotifyReadyCallback (rt : Runtime) (arguments : list Value) : Outcome :=
  Returned (Normal VUndefined) (SetReady rt) [].

(** [void killServer();] [exit(-1)], or [abort()] on Windows. *)
Definition KillServerCallback (rt : Runtime) (arguments : list Value) : Outcome :=
  Exited (-1).

(** [void toggleMemoryLogging();] *)
Definition ToggleMemoryLoggingCallback (rt : Runtime) (arguments : list Value) : Outcome :=
  Returned (Normal VUndefined) rt [toggle_debugMemoryAllocations].

(** The callbacks that are defined above, with their effects. *)
Definition exec_outcome (rt : Runtime) (arguments : list Value) : Outcome :=
  let '(completion, rt', job) := ExecCallback rt arguments in
  Returned completion rt'
    match job with
    | Some (command, args, promise) => [Execute command args promise]
    | None => []
    end.

Definition reportTestsFinished_outcome (rt : Runtime) (arguments : list Value) : Outcome :=
  let '(completion, rt', tests) :=
    ReportTestsFinishedCallback pAMXFunctions delegate rt arguments in
  Returned completion rt'
    match tests with
    | Some (total_tests, failed_tests) => [OnScriptTestsDone total_tests failed_tests]
    | None => []
    end.

Definition startTrace_outcome (rt : Runtime) (arguments : list Value) : Outcome :=
  let '(completion, rt', enabled) := StartTraceCallback rt tracing arguments in
  Returned completion rt' [TraceManager_set_enabled enabled].

Definition stopTrace_outcome (rt : Runtime) (arguments : list Value) : Outcome :=
  let '(completion, rt', enabled, file) := StopTraceCallback rt tracing arguments in
  Returned completion rt'
    (TraceManager_set_enabled enabled
       :: match file with Some name => [TraceManager_Write name] | None => [] end).

(** The callback of each function. [frameCounter] and [flushExceptionQueue]
    take no arguments and work on parts of the runtime that are not among
    the sources. *)
Definition callback (native : Name) : Runtime -> list Value -> Outcome :=
  match native with
  | addEventListener => fun rt arguments => returned (AddEventListenerCallback rt arguments)
  | dispatchEvent => fun rt arguments => returned (DispatchEventCallback script rt arguments)
  | hasEventListener => fun rt arguments => returned (HasEventListenersCallback rt arguments)
  | removeEventListener => fun rt arguments => returned (RemoveEventListenerCallback rt arguments)
  | clearModuleCache => ClearModuleCacheCallback
  | frameCounter => external frameCounter
  | flushExceptionQueue => external flushExceptionQueue
  | getDeferredEvents => fun rt arguments => returned (GetDeferredEventsCallback rt arguments)
  | getRuntimeStatistics =>
      fun rt arguments => returned (GetRuntimeStatisticsCallback rt arguments)
  | highResolutionTime => HighResolutionTimeCallback
  | pawnInvoke => PawnInvokeCallback
  | provideNative => ProvideNativeCallback
  | startTrace => startTrace_outcome
  | stopTrace => stopTrace_outcome
  | toggleMemoryLogging => ToggleMemoryLoggingCallback
  | wait => fun rt arguments => returned (WaitCallback rt arguments)
  | exec => exec_outcome
  | atob => Base64DecodeCallback
  | btoa => Base64EncodeCallback
  | hmac => HmacCallback
  | signMessage => SignMessageCallback
  | verifyMessage => VerifyMessageCallback
  | isPlayerMinimized => IsPlayerMinimizedCallback
  | reportTestsFinished => reportTestsFinished_outcome
  | notifyReady => NotifyReadyCallback
  | killServer => KillServerCallback
  | glob => GlobCallback
  | readFile =>
      fun rt arguments => returned (ReadFileCallback Utf8Value files rt arguments)
  end.

(** A script that calls native functions one after the other, each call in
    a [try] block of its own, so that an exception ends the call that threw
    it and nothing else: the completions of the calls, their effects, and
    the runtime at the end, or the exit status when the process has exited. *)
Fixpoint run_calls (calls : list (Name * list Value)) (rt : Runtime)
  : list Completion * list Effect * (Runtime + Z) :=
  match calls with
  | [] => ([], [], inl rt)
  | (native, arguments) :: rest =>
      match callback native rt arguments with
      | Exited status => ([], [], inr status)
      | Returned completion rt' effects =>
          let '(completions, effects', final) := run_calls rest rt' in
          (completion :: completions, effects ++ effects', final)
      end
  end.

End Natives.

(** *** The checks of the callbacks *)








(** *** Rejected calls *)


Section Rejected.

Variable script : Function -> list Action.
Variable pAMXFunctions : bool.
Variable delegate : bool.
Variable tracing : bool.
Variable Utf8Value : Value -> string.
Variable files : gmap string string.
Variable outside : Name -> Runtime -> list Value -> Completion * Runtime.

Local Abbreviation call :=
  (callback script pAMXFunctions delegate tracing Utf8Value files outside).
Local Abbreviation run :=
  (run_calls script pAMXFunctions delegate tracing Utf8Value files outside).




End Rejected.


Example rejected_call_example :
  (run_calls example_script true true false Utf8Value_of ∅
     (fun _ rt _ => (Normal VUndefined, rt))
     [(addEventListener, [VString "T"; VFunction 1%nat]);
      (addEventListener, [VString "T"]);
      (getRuntimeStatistics, [])] Runtime_Create).1.1
  = [Normal VUndefined;
     Abrupt (TypeError
               "unable to execute addEventListener(): 2 arguments required, but only 1 provided.");
     Normal (statistics 0 1 0 0)].
Proof. by vm_compute. Qed.

(** The process is over after [killServer]: no later call is made. *)
Example killServer_example :
  run_calls example_script true true false Utf8Value_of ∅
    (fun _ rt _ => (Normal VUndefined, rt))
    [(hasEventListener, [VString "T"]); (killServer, []);
     (addEventListener, [VString "T"; VFunction 1%nat])] Runtime_Create
  = ([Normal (VBoolean false)], [], inr (-1)).
Proof. by vm_compute. Qed.

End Bridge.
